(** * Easy English Buddy: the reply splitter and the speech delivery loop

    A shallow embedding of [parse_gigachat_response] and [process_message]
    of [src/main.py], and the properties of the specification proved (or
    refuted) on it.

    Python strings are sequences of Unicode code points: a character is its
    code point ([N]) and a string is a list of characters.  The built-in
    string methods used by the source ([strip], [split], [join],
    [startswith], [in]) are modelled by structural recursion.  The
    coroutine [process_message] is a function from the history of
    collaborator calls to a result and the list of calls it makes. *)

From Stdlib Require Import List NArith ZArith Bool Lia Arith.
Import ListNotations.

Set Implicit Arguments.

(** ** Python strings *)

Definition char := N.
Definition str := list char.

Definition is_empty (A : Type) (l : list A) : bool :=
  match l with [] => true | _ :: _ => false end.

Definition nonempty (A : Type) (l : list A) : bool := negb (is_empty l).

(** [str.isspace] on one character: the code points [Py_UNICODE_ISSPACE]
    accepts, which are also the ones [str.strip()] and [str.split()] drop. *)
Definition isspace (c : char) : bool :=
  ((9 <=? c) && (c <=? 13) || (28 <=? c) && (c <=? 32) || (c =? 133) || (c =? 160)
   || (c =? 5760) || (8192 <=? c) && (c <=? 8202) || (c =? 8232) || (c =? 8233)
   || (c =? 8239) || (c =? 8287) || (c =? 12288))%N.

(** ['Ѐ' <= char <= 'ӿ'] *)
Definition is_cyrillic (c : char) : bool := ((1024 <=? c) && (c <=? 1279))%N.

Definition has_cyrillic (s : str) : bool := existsb is_cyrillic s.

Fixpoint lstrip_by (p : char -> bool) (s : str) : str :=
  match s with
  | [] => []
  | c :: s' => if p c then lstrip_by p s' else s
  end.

Fixpoint rstrip_by (p : char -> bool) (s : str) : str :=
  match s with
  | [] => []
  | c :: s' =>
      match rstrip_by p s' with
      | [] => if p c then [] else [c]
      | r => c :: r
      end
  end.

Definition strip_by (p : char -> bool) (s : str) : str :=
  rstrip_by p (lstrip_by p s).

(** [s.strip()] *)
Definition strip (s : str) : str := strip_by isspace s.

(** [s.strip(chars)] *)
Definition strip_chars (chars : str) (s : str) : str :=
  strip_by (fun c => existsb (N.eqb c) chars) s.

(** [s.startswith(prefix)] *)
Fixpoint startswith (prefix s : str) : bool :=
  match prefix, s with
  | [], _ => true
  | _ :: _, [] => false
  | a :: prefix', b :: s' => (a =? b)%N && startswith prefix' s'
  end.

(** [sub in s] *)
Fixpoint contains (sub s : str) : bool :=
  startswith sub s ||
  match s with
  | [] => false
  | _ :: s' => contains sub s'
  end.

Definition may_split (maxsplit : option nat) : bool :=
  match maxsplit with Some 0 => false | _ => true end.

(** [split_go sep maxsplit skip s]: the piece that is being read and the
    pieces after it; [skip] characters of a separator that has just been
    recognised are still to be passed over. *)
Fixpoint split_go (sep : str) (maxsplit : option nat) (skip : nat) (s : str)
  : str * list str :=
  match s with
  | [] => ([], [])
  | c :: s' =>
      match skip with
      | S k => split_go sep maxsplit k s'
      | O =>
          if may_split maxsplit && startswith sep s then
            ([], let '(p, r) :=
                   split_go sep (option_map pred maxsplit) (length sep - 1) s'
                 in p :: r)
          else
            let '(p, r) := split_go sep maxsplit 0 s' in (c :: p, r)
      end
  end.

(** [s.split(sep, maxsplit)] for a non-empty [sep]; [None] is no limit. *)
Definition split (sep : str) (maxsplit : option nat) (s : str) : list str :=
  let '(p, r) := split_go sep maxsplit 0 s in p :: r.

Definition cons_word (w : str) (ws : list str) : list str :=
  match w with [] => ws | _ :: _ => w :: ws end.

Fixpoint words_go (s : str) : str * list str :=
  match s with
  | [] => ([], [])
  | c :: s' =>
      let '(w, ws) := words_go s' in
      if isspace c then ([], cons_word w ws) else (c :: w, ws)
  end.

(** [s.split()]: the maximal runs of characters that are not whitespace. *)
Definition split_ws (s : str) : list str :=
  let '(w, ws) := words_go s in cons_word w ws.

(** [sep.join(l)] *)
Fixpoint join (sep : str) (l : list str) : str :=
  match l with
  | [] => []
  | x :: rest =>
      match rest with
      | [] => x
      | _ :: _ => x ++ sep ++ join sep rest
      end
  end.

(** ** Exceptions *)

Inductive exn := IndexError | ValueError | ServiceError.

Inductive result (A : Type) :=
| Ok (a : A)
| Raise (e : exn).

Arguments Raise {A} e.

Definition bind_result (A B : Type) (r : result A) (k : A -> result B) : result B :=
  match r with
  | Ok a => k a
  | Raise e => Raise e
  end.

Declare Scope result_scope.
Delimit Scope result_scope with res.

Notation "x <- c ;; k" := (bind_result c (fun x => k))
  (at level 61, c at next level, right associativity) : result_scope.
Notation "' pat <- c ;; k" := (bind_result c (fun x => match x with pat => k end))
  (at level 61, pat pattern, c at next level, right associativity) : result_scope.

(** [l[i]]: raises [IndexError] out of range. *)
Definition index (A : Type) (l : list A) (i : nat) : result A :=
  match nth_error l i with
  | Some x => Ok x
  | None => Raise IndexError
  end.

(** ** String constants of the source *)

(** ['---'] *)
Definition sep : str := [45; 45; 45]%N.
(** ['\n'] *)
Definition nl : str := [10]%N.
(** ['['] *)
Definition lbracket : str := [91]%N.
(** ['[]'] *)
Definition brackets : str := [91; 93]%N.
(** [' '] *)
Definition space : str := [32]%N.

(** ["Translation not available"] *)
Definition placeholder : str :=
  [84; 114; 97; 110; 115; 108; 97; 116; 105; 111; 110; 32; 110; 111; 116; 32;
   97; 118; 97; 105; 108; 97; 98; 108; 101]%N.

(** The text sent for a message without text. *)
Definition rejection : str :=
  [1055; 1086; 1078; 1072; 1083; 1091; 1081; 1089; 1090; 1072; 44; 32; 1086;
   1090; 1087; 1088; 1072; 1074; 1100; 1090; 1077; 32; 1090; 1077; 1082; 1089;
   1090; 1086; 1074; 1086; 1077; 32; 1089; 1086; 1086; 1073; 1097; 1077; 1085;
   1080; 1077; 46]%N.

(** [error_note]: the notice that no audio could be produced. *)
Definition error_note : str :=
  [10; 10; 9888; 65039; 32; 95; 1053; 1077; 32; 1091; 1076; 1072; 1083; 1086;
   1089; 1100; 32; 1089; 1075; 1077; 1085; 1077; 1088; 1080; 1088; 1086; 1074;
   1072; 1090; 1100; 32; 1086; 1079; 1074; 1091; 1095; 1082; 1091; 32; 1076;
   1083; 1103; 32; 1092; 1088; 1072; 1079; 1099; 46; 95]%N.

(** [error_message]: the apology of the outer handler. *)
Definition error_message : str :=
  [1055; 1088; 1086; 1080; 1079; 1086; 1096; 1083; 1072; 32; 1086; 1096; 1080;
   1073; 1082; 1072; 32; 1087; 1088; 1080; 32; 1086; 1073; 1088; 1072; 1073;
   1086; 1090; 1082; 1077; 32; 1074; 1072; 1096; 1077; 1075; 1086; 32; 1079;
   1072; 1087; 1088; 1086; 1089; 1072; 46; 32; 1055; 1086; 1078; 1072; 1083;
   1091; 1081; 1089; 1090; 1072; 44; 32; 1087; 1086; 1087; 1088; 1086; 1073;
   1091; 1081; 1090; 1077; 32; 1077; 1097; 1077; 32; 1088; 1072; 1079; 32;
   1087; 1086; 1079; 1078; 1077; 46]%N.

(** ["Markdown"] *)
Definition markdown : str := [77; 97; 114; 107; 100; 111; 119; 110]%N.

(** ["voice.opus"] *)
Definition voice_opus : str := [118; 111; 105; 99; 101; 46; 111; 112; 117; 115]%N.

(** ["\n\n---\n\n"], the middle of the two-part text reply. *)
Definition reply_rule : str := [10; 10; 45; 45; 45; 10; 10]%N.

(** ** The reply splitter *)

Section Splitter.

(** [str.isalpha] on one character.  The Unicode table behind it is not part
    of the program; it is a parameter of the development. *)
Variable isalpha : char -> bool.

(** [c.isalpha() and ord(c) < 128] *)
Definition is_latin (c : char) : bool := isalpha c && (c <? 128)%N.

(** The test of the scan for the phrase: Latin letters, no Cyrillic, and no
    opening bracket in front. *)
Definition english_line (line : str) : bool :=
  let has_cyrillic := has_cyrillic line in
  let has_latin := existsb is_latin line in
  has_latin && negb has_cyrillic && negb (startswith lbracket line).

(** [for i, line in enumerate(lines)]: [rest] is what is left of [lines]
    from index [i] on. *)
Fixpoint scan_lines (lines : list str) (i : nat) (rest : list str)
    (english_text explanation : str) : str * str :=
  match rest with
  | [] => (english_text, explanation)
  | line :: rest' =>
      if english_line line then
        (line,
         if i + 1 <? length lines
         then strip (join nl (skipn (i + 1) lines))
         else explanation)
      else scan_lines lines (S i) rest' english_text explanation
  end.

(** [[line.strip() for line in response.split('\n') if line.strip()]] *)
Definition trimmed_lines (response : str) : list str :=
  map strip (filter (fun line => nonempty (strip line)) (split nl None response)).

Definition parse_gigachat_response (response : str) : result (str * str) :=
  (let response := strip response in
   '(english_text, explanation) <-
     (if contains sep response then
        let parts := split sep (Some 1) response in
        if length parts =? 2 then
          part0 <- index parts 0 ;;
          part1 <- index parts 1 ;;
          Ok (strip part0, strip part1)
        else Ok (response, [])
      else
        let lines := trimmed_lines response in
        let '(english_text, explanation) := scan_lines lines 0 lines [] [] in
        if is_empty english_text then
          english_text <- (if nonempty lines then index lines 0 else Ok response) ;;
          let explanation :=
            if 1 <? length lines then strip (join nl (skipn 1 lines)) else [] in
          Ok (english_text, explanation)
        else Ok (english_text, explanation)) ;;
   let english_text := strip (strip_chars brackets english_text) in
   let english_text := join space (split_ws english_text) in
   let explanation := strip explanation in
   Ok (english_text, explanation))%res.

End Splitter.

(** ** Collaborators and their calls *)

Inductive chat_action := typing | record_voice.

Definition bytes := list Byte.byte.

(** A call that [process_message] makes on a collaborator. *)
Inductive event :=
| Answer (text : str) (parse_mode : option str)
| SendChatAction (action : chat_action)
| SendMessage (message : str)
| GenerateSpeech (text : str)
| AnswerVoice (audio_data : bytes) (filename : str)
| Sleep (seconds : N).

(** What the collaborators do on a call, given the calls made before it:
    [message.answer], [message.bot.send_chat_action] and
    [message.answer_voice] succeed or raise; [gigachat_client.send_message]
    and [tts_client.generate_speech] return a value or raise ([None]). *)
Record collaborators := {
  answer_ok : list event -> str -> option str -> bool;
  send_chat_action_ok : list event -> chat_action -> bool;
  send_message_reply : list event -> str -> option str;
  generate_speech_reply : list event -> str -> option bytes;
  answer_voice_ok : list event -> bytes -> str -> bool
}.

(** A coroutine: from the calls made so far to its result and the calls it
    makes. *)
Definition action (A : Type) := list event -> result A * list event.

Definition ret (A : Type) (a : A) : action A := fun _ => (Ok a, []).

Definition lift (A : Type) (r : result A) : action A := fun _ => (r, []).

Definition bind (A B : Type) (m : action A) (k : A -> action B) : action B :=
  fun history =>
    match m history with
    | (Ok a, made) =>
        let '(r, made') := k a (history ++ made) in (r, made ++ made')
    | (Raise e, made) => (Raise e, made)
    end.

(** [try: m  except Exception as e: handler e] *)
Definition try_except (A : Type) (m : action A) (handler : exn -> action A) : action A :=
  fun history =>
    match m history with
    | (Ok a, made) => (Ok a, made)
    | (Raise e, made) =>
        let '(r, made') := handler e (history ++ made) in (r, made ++ made')
    end.

Definition call (ok : bool) (e : event) : result unit * list event :=
  (if ok then Ok tt else Raise ServiceError, [e]).

Definition call_value (A : Type) (reply : option A) (e : event) : result A * list event :=
  (match reply with Some a => Ok a | None => Raise ServiceError end, [e]).

Declare Scope action_scope.
Delimit Scope action_scope with act.

Notation "x <- c ;; k" := (bind c (fun x => k))
  (at level 61, c at next level, right associativity) : action_scope.
Notation "' pat <- c ;; k" := (bind c (fun x => match x with pat => k end))
  (at level 61, pat pattern, c at next level, right associativity) : action_scope.
Notation "c ;; k" := (bind c (fun _ => k))
  (at level 61, right associativity) : action_scope.

Inductive loop_control := Break | Continue.

(** ** The orchestrator *)

Section Orchestrator.

Variable isalpha : char -> bool.
Variable world : collaborators.

Definition answer (text : str) (parse_mode : option str) : action unit :=
  fun history => call (answer_ok world history text parse_mode) (Answer text parse_mode).

Definition send_chat_action (kind : chat_action) : action unit :=
  fun history => call (send_chat_action_ok world history kind) (SendChatAction kind).

Definition send_message (message : str) : action str :=
  fun history => call_value (send_message_reply world history message) (SendMessage message).

Definition generate_speech (text : str) : action bytes :=
  fun history => call_value (generate_speech_reply world history text) (GenerateSpeech text).

Definition answer_voice (audio_data : bytes) (filename : str) : action unit :=
  fun history =>
    call (answer_voice_ok world history audio_data filename) (AnswerVoice audio_data filename).

Definition sleep (seconds : N) : action unit := fun _ => (Ok tt, [Sleep seconds]).

(** [not s or not s.strip()] *)
Definition blank (s : str) : bool := is_empty s || is_empty (strip s).

(** Lines 318-323: an empty phrase is replaced by the text before the
    separator (or the whole reply), and that by a placeholder when empty. *)
Definition repair_empty (gigachat_response english_text : str) : result str :=
  (if blank english_text then
     english_text <-
       (if contains sep gigachat_response then
          part0 <- index (split sep None gigachat_response) 0 ;;
          Ok (strip part0)
        else Ok (strip gigachat_response)) ;;
     Ok (if is_empty english_text then placeholder else english_text)
   else Ok english_text)%res.

(** The test of the second scan (lines 334-335), on a trimmed line. *)
Definition repair_line (line : str) : bool :=
  (nonempty line && negb (has_cyrillic line) && existsb isalpha line)
  && (negb (contains sep line) && negb (startswith lbracket line)).

(** Lines 331-337: [for line in lines] with its [break]. *)
Fixpoint rescan (lines : list str) (english_text : str) : str :=
  match lines with
  | [] => english_text
  | line :: lines' =>
      let line := strip line in
      if nonempty line && negb (has_cyrillic line) && existsb isalpha line then
        if negb (contains sep line) && negb (startswith lbracket line) then line
        else rescan lines' english_text
      else rescan lines' english_text
  end.

(** Lines 326-337: a phrase with Cyrillic in it is looked for again. *)
Definition repair_cyrillic (gigachat_response english_text : str) : str :=
  let has_cyrillic := has_cyrillic english_text in
  if has_cyrillic then rescan (split nl None gigachat_response) english_text
  else english_text.

(** Lines 340-343: the text reply. *)
Definition compose (english_text explanation : str) : str :=
  if nonempty explanation then english_text ++ reply_rule ++ explanation
  else english_text.

(** Lines 353-385: [for attempt in range(max_retries)]; [attempts] is what
    is left of the range. *)
Fixpoint speech_attempts (max_retries : nat) (attempts : list nat)
    (english_text : str) (audio_sent : bool) : action bool :=
  match attempts with
  | [] => ret audio_sent
  | attempt :: attempts' =>
      (control <-
         try_except
           (send_chat_action record_voice ;;
            audio_data <- generate_speech (strip english_text) ;;
            if is_empty audio_data then lift (Raise ValueError)
            else
              answer_voice audio_data voice_opus ;;
              ret Break)
           (fun tts_error =>
              if attempt <? max_retries - 1 then
                sleep 1 ;; ret Continue
              else
                try_except (answer error_note (Some markdown)) (fun _ => ret tt) ;;
                ret Continue) ;;
       match control with
       | Break => ret true
       | Continue => speech_attempts max_retries attempts' english_text audio_sent
       end)%act
  end.

(** Lines 349-385: the speech delivery. *)
Definition deliver_speech (english_text : str) : action unit :=
  (if nonempty english_text && nonempty (strip english_text) then
     let audio_sent := false in
     let max_retries := 2 in
     speech_attempts max_retries (seq 0 max_retries) english_text audio_sent ;;
     ret tt
   else ret tt)%act.

Definition process_message (user_text : option str) : action unit :=
  match user_text with
  | None => answer rejection None
  | Some user_text =>
      if blank user_text then answer rejection None
      else
        try_except
          (send_chat_action typing ;;
           gigachat_response <- send_message user_text ;;
           ' (english_text, explanation) <-
               lift (parse_gigachat_response isalpha gigachat_response) ;;
           english_text <- lift (repair_empty gigachat_response english_text) ;;
           let english_text := repair_cyrillic gigachat_response english_text in
           let full_response := compose english_text explanation in
           answer full_response None ;;
           deliver_speech english_text)%act
          (fun e => answer error_message None)
  end.

End Orchestrator.

(** ** Notions used to state the properties *)

(** A string that neither begins nor ends with a character of [p]: what
    [strip] leaves unchanged. *)
Definition trimmed_by (p : char -> bool) (s : str) : Prop :=
  lstrip_by p s = s /\ rstrip_by p s = s.

(** The number of positions of [s] at which [sub] occurs. *)
Fixpoint occurrences (sub s : str) : nat :=
  (if startswith sub s then 1 else 0) +
  match s with
  | [] => 0
  | _ :: s' => occurrences sub s'
  end.

(** The string has a character that is not whitespace. *)
Definition has_text (s : str) : bool := existsb (fun c => negb (isspace c)) s.

(** Lines 283-286 as a function of the selected phrase: brackets are
    stripped from both ends, the text is trimmed, and every run of
    whitespace becomes one space. *)
Definition clean_phrase (english_text : str) : str :=
  join space (split_ws (strip (strip_chars brackets english_text))).

(** The filter of the list of lines: [if line.strip()]. *)
Definition line_kept (line : str) : bool := nonempty (strip line).

(** A word: a non-empty string without whitespace. *)
Definition word (w : str) : Prop :=
  w <> [] /\ forallb (fun c => negb (isspace c)) w = true.

(** [x] occurs in [s] as a contiguous part. *)
Definition infix (x s : str) : Prop := exists l r, s = l ++ x ++ r.

(** The calls of one attempt of the speech delivery in which the speech
    service is reached only when the presence signal went through. *)
Definition attempt_calls (world : collaborators) (english_text : str)
    (history : list event) : list event :=
  SendChatAction record_voice ::
  (if send_chat_action_ok world history record_voice
   then [GenerateSpeech (strip english_text)] else []).

(** The phrase that [process_message] composes its text reply from and
    hands to the speech delivery, for a reply of the completion service
    (lines 314-337). *)
Definition spoken_phrase (isalpha : char -> bool) (gigachat_response : str)
  : result str :=
  ('(english_text, explanation) <-
     parse_gigachat_response isalpha gigachat_response ;;
   english_text <- repair_empty gigachat_response english_text ;;
   Ok (repair_cyrillic isalpha gigachat_response english_text))%res.

(** The calls that the speech delivery for [english_text] can make. *)
Definition speech_event (english_text : str) (e : event) : Prop :=
  match e with
  | SendChatAction kind => kind = record_voice
  | GenerateSpeech text => text = strip english_text
  | AnswerVoice audio_data filename => audio_data <> [] /\ filename = voice_opus
  | Sleep seconds => seconds = 1%N
  | Answer text parse_mode => text = error_note /\ parse_mode = Some markdown
  | SendMessage _ => False
  end.

(** The letters A-Z and a-z. *)
Definition ascii_letter (c : char) : bool :=
  ((65 <=? c) && (c <=? 90) || (97 <=? c) && (c <=? 122))%N.

(** The call is one of the speech service. *)
Definition is_generate_speech (e : event) : bool :=
  match e with GenerateSpeech _ => true | _ => false end.

(** ** Examples *)

(** [str.isalpha] on the Basic Latin and Cyrillic blocks, which is all the
    examples use: the letters A-Z and a-z, and the Cyrillic block without
    its marks U+0482 to U+0489. *)
Definition isalpha_model (c : char) : bool :=
  ((65 <=? c) && (c <=? 90) || (97 <=? c) && (c <=? 122)
   || (1024 <=? c) && (c <=? 1153) || (1162 <=? c) && (c <=? 1279))%N.

(** The first example of the specification: [Hello world.\n---\nОбъяснение.] *)
Definition hello_reply : str :=
  [72; 101; 108; 108; 111; 32; 119; 111; 114; 108; 100; 46; 10; 45; 45; 45;
   10; 1054; 1073; 1098; 1103; 1089; 1085; 1077; 1085; 1080; 1077; 46]%N.

(** [Hello world.\n] *)
Definition hello_pre : str :=
  [72; 101; 108; 108; 111; 32; 119; 111; 114; 108; 100; 46; 10]%N.

(** [\nОбъяснение.] *)
Definition hello_post : str :=
  [10; 1054; 1073; 1098; 1103; 1089; 1085; 1077; 1085; 1080; 1077; 46]%N.

(** [Hello world.] *)
Definition hello_phrase : str :=
  [72; 101; 108; 108; 111; 32; 119; 111; 114; 108; 100; 46]%N.

(** [Объяснение.] *)
Definition hello_explanation : str :=
  [1054; 1073; 1098; 1103; 1089; 1085; 1077; 1085; 1080; 1077; 46]%N.

(** The second example of the specification: [[I am fine]\n\nЯ в порядке.] *)
Definition fine_reply : str :=
  [91; 73; 32; 97; 109; 32; 102; 105; 110; 101; 93; 10; 10; 1071; 32; 1074;
   32; 1087; 1086; 1088; 1103; 1076; 1082; 1077; 46]%N.

(** [I am fine] *)
Definition fine_phrase : str :=
  [73; 32; 97; 109; 32; 102; 105; 110; 101]%N.

(** [Я в порядке.] *)
Definition fine_explanation : str :=
  [1071; 32; 1074; 32; 1087; 1086; 1088; 1103; 1076; 1082; 1077; 46]%N.

(** The third example of the specification: [Привет, как дела?] *)
Definition privet_reply : str :=
  [1055; 1088; 1080; 1074; 1077; 1090; 44; 32; 1082; 1072; 1082; 32; 1076;
   1077; 1083; 1072; 63]%N.

(** A reply without separator whose explanation has blank lines and indentation: [Hello\n\n  one\n\n  two] *)
Definition indented_reply : str :=
  [72; 101; 108; 108; 111; 10; 10; 32; 32; 111; 110; 101; 10; 10; 32; 32;
   116; 119; 111]%N.

(** [Hello] *)
Definition indented_phrase : str :=
  [72; 101; 108; 108; 111]%N.

(** [one\ntwo] *)
Definition indented_explanation : str :=
  [111; 110; 101; 10; 116; 119; 111]%N.

(** A reply whose phrase keeps a bracket at its end: [[Say [hi] ]\n---\nok] *)
Definition bracket_reply : str :=
  [91; 83; 97; 121; 32; 91; 104; 105; 93; 32; 93; 10; 45; 45; 45; 10; 111;
   107]%N.

(** [Say [hi]] *)
Definition bracket_phrase : str :=
  [83; 97; 121; 32; 91; 104; 105; 93]%N.

(** [ok] *)
Definition bracket_explanation : str :=
  [111; 107]%N.

(** [Say [hi] *)
Definition bracket_phrase_again : str :=
  [83; 97; 121; 32; 91; 104; 105]%N.

(** [hi] *)
Definition hi : str :=
  [104; 105]%N.

(** A reply whose phrase is Cyrillic and whose explanation is the English line: [Привет\n---\nHello there] *)
Definition repairable_reply : str :=
  [1055; 1088; 1080; 1074; 1077; 1090; 10; 45; 45; 45; 10; 72; 101; 108;
   108; 111; 32; 116; 104; 101; 114; 101]%N.

(** [Привет] *)
Definition privet_word : str :=
  [1055; 1088; 1080; 1074; 1077; 1090]%N.

(** [Hello there] *)
Definition hello_there : str :=
  [72; 101; 108; 108; 111; 32; 116; 104; 101; 114; 101]%N.

(** A message of whitespace only: [ \n ] *)
Definition blank_text : str :=
  [32; 10; 32]%N.

(** Collaborators that all work: the completion service answers [reply] and
    the speech service returns [audio]. *)
Definition working_world (reply : str) (audio : bytes) : collaborators :=
  {| answer_ok := fun _ _ _ => true;
     send_chat_action_ok := fun _ _ => true;
     send_message_reply := fun _ _ => Some reply;
     generate_speech_reply := fun _ _ => Some audio;
     answer_voice_ok := fun _ _ _ => true |}.

(** Collaborators whose speech service raises on every call, and whose
    channel also fails to send a Markdown message (the failure notice). *)
Definition mute_world (reply : str) : collaborators :=
  {| answer_ok := fun _ _ parse_mode =>
       match parse_mode with None => true | Some _ => false end;
     send_chat_action_ok := fun _ _ => true;
     send_message_reply := fun _ _ => Some reply;
     generate_speech_reply := fun _ _ => None;
     answer_voice_ok := fun _ _ _ => true |}.

(** The same collaborators, but for a speech service that raises wherever
    the one of [world] returns zero bytes. *)
Definition empty_audio_raises (world : collaborators) : collaborators :=
  {| answer_ok := answer_ok world;
     send_chat_action_ok := send_chat_action_ok world;
     send_message_reply := send_message_reply world;
     generate_speech_reply := fun history text =>
       match generate_speech_reply world history text with
       | Some [] => None
       | reply => reply
       end;
     answer_voice_ok := answer_voice_ok world |}.

(** Collaborators whose speech service raises on its first call and returns
    [audio] afterwards. *)
Definition flaky_world (reply : str) (audio : bytes) : collaborators :=
  {| answer_ok := fun _ _ _ => true;
     send_chat_action_ok := fun _ _ => true;
     send_message_reply := fun _ _ => Some reply;
     generate_speech_reply := fun history _ =>
       if existsb is_generate_speech history then Some audio else None;
     answer_voice_ok := fun _ _ _ => true |}.

(** ** Kinds of calls *)

Definition is_sleep (e : event) : bool :=
  match e with Sleep _ => true | _ => false end.

Definition is_answer (e : event) : bool :=
  match e with Answer _ _ => true | _ => false end.


(** ** The configuration check ([src/config.py]) *)

Module Config.

(** ['BOT_TOKEN'] *)
Definition name_bot_token : str :=
  [66; 79; 84; 95; 84; 79; 75; 69; 78]%N.

(** ['GIGACHAT_AUTH'] *)
Definition name_gigachat_auth : str :=
  [71; 73; 71; 65; 67; 72; 65; 84; 95; 65; 85; 84; 72]%N.

(** ['OPENAI_API_KEY'] *)
Definition name_openai_api_key : str :=
  [79; 80; 69; 78; 65; 73; 95; 65; 80; 73; 95; 75; 69; 89]%N.

(** [', '] *)
Definition comma : str :=
  [44; 32]%N.

(** The line of sixty [=]. *)
Definition rule_line : str := repeat 61%N 60.

(** The heading of the report. *)
Definition report_title : str :=
  [1054; 1064; 1048; 1041; 1050; 1040; 58; 32; 1054; 1090; 1089; 1091;
   1090; 1089; 1090; 1074; 1091; 1102; 1090; 32; 1085; 1077; 1086; 1073;
   1093; 1086; 1076; 1080; 1084; 1099; 1077; 32; 1087; 1077; 1088; 1077;
   1084; 1077; 1085; 1085; 1099; 1077; 32; 1086; 1082; 1088; 1091; 1078;
   1077; 1085; 1080; 1103; 33]%N.

(** What comes before the names in the line of the missing variables. *)
Definition not_found : str :=
  [10; 1053; 1077; 32; 1085; 1072; 1081; 1076; 1077; 1085; 1099; 58; 32]%N.

(** The ten lines of advice that follow, as printed. *)
Definition advice : list str :=
  [([10; 1056; 1077; 1096; 1077; 1085; 1080; 1077; 58]%N);
   ([49; 46; 32; 1057; 1086; 1079; 1076; 1072; 1081; 1090; 1077; 32; 1092;
   1072; 1081; 1083; 32; 46; 101; 110; 118; 32; 1074; 32; 1082; 1086; 1088;
   1085; 1077; 32; 1087; 1088; 1086; 1077; 1082; 1090; 1072]%N);
   ([50; 46; 32; 1044; 1086; 1073; 1072; 1074; 1100; 1090; 1077; 32; 1089;
   1083; 1077; 1076; 1091; 1102; 1097; 1080; 1077; 32; 1089; 1090; 1088;
   1086; 1082; 1080; 58]%N);
   ([32; 32; 32; 66; 79; 84; 95; 84; 79; 75; 69; 78; 61; 1074; 1072; 1096;
   95; 1090; 1086; 1082; 1077; 1085; 95; 116; 101; 108; 101; 103; 114; 97;
   109]%N);
   ([32; 32; 32; 71; 73; 71; 65; 67; 72; 65; 84; 95; 65; 85; 84; 72; 61;
   1074; 1072; 1096; 95; 103; 105; 103; 97; 99; 104; 97; 116; 95; 97; 117;
   116; 104; 95; 107; 101; 121]%N);
   ([32; 32; 32; 79; 80; 69; 78; 65; 73; 95; 65; 80; 73; 95; 75; 69; 89; 61;
   1074; 1072; 1096; 95; 111; 112; 101; 110; 97; 105; 95; 97; 112; 105; 95;
   107; 101; 121]%N);
   ([10; 51; 46; 32; 1055; 1086; 1083; 1091; 1095; 1080; 1090; 1077; 32;
   1090; 1086; 1082; 1077; 1085; 1099; 58]%N);
   ([32; 32; 32; 45; 32; 66; 79; 84; 95; 84; 79; 75; 69; 78; 58; 32; 1091;
   32; 64; 66; 111; 116; 70; 97; 116; 104; 101; 114; 32; 1074; 32; 84; 101;
   108; 101; 103; 114; 97; 109]%N);
   ([32; 32; 32; 45; 32; 71; 73; 71; 65; 67; 72; 65; 84; 95; 65; 85; 84; 72;
   58; 32; 1074; 32; 1083; 1080; 1095; 1085; 1086; 1084; 32; 1082; 1072;
   1073; 1080; 1085; 1077; 1090; 1077; 32; 71; 105; 103; 97; 67; 104; 97;
   116]%N);
   ([32; 32; 32; 45; 32; 79; 80; 69; 78; 65; 73; 95; 65; 80; 73; 95; 75; 69;
   89; 58; 32; 1085; 1072; 32; 104; 116; 116; 112; 115; 58; 47; 47; 112;
   108; 97; 116; 102; 111; 114; 109; 46; 111; 112; 101; 110; 97; 105; 46;
   99; 111; 109; 47; 97; 112; 105; 45; 107; 101; 121; 115]%N)].

(** [not value] for a value of [os.getenv]: no variable, or an empty one. *)
Definition unset (value : option str) : bool :=
  match value with
  | None => true
  | Some s => is_empty s
  end.

(** How [check_config] ends: it returns, or [sys.exit] ends the process. *)
Inductive ending := Returns | SystemExit (status : nat).

(** [check_config], for the three values read from the environment: how it
    ends, and what it prints, one string for each [print]. *)
Definition check_config (BOT_TOKEN GIGACHAT_AUTH OPENAI_API_KEY : option str)
  : ending * list str :=
  let errors := [] in
  let errors := if unset BOT_TOKEN then errors ++ [name_bot_token] else errors in
  let errors :=
    if unset GIGACHAT_AUTH then errors ++ [name_gigachat_auth] else errors in
  let errors :=
    if unset OPENAI_API_KEY then errors ++ [name_openai_api_key] else errors in
  if nonempty errors then
    (SystemExit 1,
     [rule_line; report_title; rule_line; not_found ++ join comma errors]
     ++ advice ++ [rule_line])
  else (Returns, []).

(** The names of the variables that are not set, in the order of the
    checks. *)
Definition missing (BOT_TOKEN GIGACHAT_AUTH OPENAI_API_KEY : option str)
  : list str :=
  map fst
    (filter (fun variable => unset (snd variable))
       [(name_bot_token, BOT_TOKEN); (name_gigachat_auth, GIGACHAT_AUTH);
        (name_openai_api_key, OPENAI_API_KEY)]).

End Config.

(** ** The completion client ([GigaChatClient]) *)

Module GigaChatClient.

(** ['access_token'] *)
Definition key_access_token : str :=
  [97; 99; 99; 101; 115; 115; 95; 116; 111; 107; 101; 110]%N.

(** ['expires_in'] *)
Definition key_expires_in : str :=
  [101; 120; 112; 105; 114; 101; 115; 95; 105; 110]%N.

(** ['choices'] *)
Definition key_choices : str :=
  [99; 104; 111; 105; 99; 101; 115]%N.

(** ['message'] *)
Definition key_message : str :=
  [109; 101; 115; 115; 97; 103; 101]%N.

(** ['content'] *)
Definition key_content : str :=
  [99; 111; 110; 116; 101; 110; 116]%N.

(** ['text'] *)
Definition key_text : str :=
  [116; 101; 120; 116]%N.

(** The default of [.get('content', ...)]: ['Пустой ответ от GigaChat'] *)
Definition empty_reply : str :=
  [1055; 1091; 1089; 1090; 1086; 1081; 32; 1086; 1090; 1074; 1077; 1090;
   32; 1086; 1090; 32; 71; 105; 103; 97; 67; 104; 97; 116]%N.

(** The text returned for a response of unexpected structure. *)
Definition no_reply : str :=
  [1048; 1079; 1074; 1080; 1085; 1080; 1090; 1077; 44; 32; 1085; 1077; 32;
   1091; 1076; 1072; 1083; 1086; 1089; 1100; 32; 1087; 1086; 1083; 1091;
   1095; 1080; 1090; 1100; 32; 1086; 1090; 1074; 1077; 1090; 32; 1086;
   1090; 32; 71; 105; 103; 97; 67; 104; 97; 116; 46]%N.

Fixpoint str_eqb (a b : str) : bool :=
  match a, b with
  | [], [] => true
  | x :: a', y :: b' => (x =? y)%N && str_eqb a' b'
  | _, _ => false
  end.

(** The exceptions of the client and of the operations on the values it
    reads. *)
Inductive error :=
| RequestException
| ValueError
| TypeError
| KeyError
| AttributeError
| IndexError
| OverflowError.

Inductive outcome (A : Type) :=
| Returned (a : A)
| Raised (e : error).

Arguments Raised {A} e.

(** Python numbers, of which the sources only use what is named here:
    [+], [-], [<], truth, and the numbers that [True] and [False] stand
    for; the clock and the numbers of a response are such numbers.  The
    clock is a float, and [float + value] first makes a float of [value]:
    [as_float] is that step, which fails for an [int] beyond the range of
    the floats, where Python raises [OverflowError]. *)
Record arithmetic := {
  number : Type;
  as_float : number -> option number;
  add : number -> number -> number;
  sub : number -> number -> number;
  ltb : number -> number -> bool;
  nonzero : number -> bool;
  of_bool : bool -> number;
  of_nat : nat -> number
}.

Section Client.

Variable py : arithmetic.

(** A value made by [response.json()]; the items of a [dict] have
    different keys. *)
#[warnings="-register-all"]
Inductive json :=
| JNull
| JBool (b : bool)
| JNum (n : number py)
| JStr (s : str)
| JArr (items : list json)
| JObj (fields : list (str * json)).

(** [bool(value)] *)
Definition truthy (value : json) : bool :=
  match value with
  | JNull => false
  | JBool b => b
  | JNum n => nonzero py n
  | JStr s => nonempty s
  | JArr items => nonempty items
  | JObj fields => nonempty fields
  end.

Fixpoint lookup (key : str) (fields : list (str * json)) : option json :=
  match fields with
  | [] => None
  | (k, v) :: fields' => if str_eqb k key then Some v else lookup key fields'
  end.

Definition is_str (key : str) (value : json) : bool :=
  match value with
  | JStr s => str_eqb s key
  | _ => false
  end.

(** [key in value], for a string [key] *)
Definition py_in (key : str) (value : json) : outcome bool :=
  match value with
  | JObj fields => Returned (match lookup key fields with Some _ => true | None => false end)
  | JArr items => Returned (existsb (is_str key) items)
  | JStr s => Returned (contains key s)
  | JNull | JBool _ | JNum _ => Raised TypeError
  end.

(** [len(value)] *)
Definition py_len (value : json) : outcome nat :=
  match value with
  | JObj fields => Returned (length fields)
  | JArr items => Returned (length items)
  | JStr s => Returned (length s)
  | JNull | JBool _ | JNum _ => Raised TypeError
  end.

(** [value[key]], for a string [key] *)
Definition py_item (value : json) (key : str) : outcome json :=
  match value with
  | JObj fields =>
      match lookup key fields with
      | Some v => Returned v
      | None => Raised KeyError
      end
  | _ => Raised TypeError
  end.

(** [value[0]] *)
Definition py_first (value : json) : outcome json :=
  match value with
  | JArr items =>
      match items with
      | v :: _ => Returned v
      | [] => Raised IndexError
      end
  | JStr s =>
      match s with
      | c :: _ => Returned (JStr [c])
      | [] => Raised IndexError
      end
  | JObj _ => Raised KeyError
  | JNull | JBool _ | JNum _ => Raised TypeError
  end.

(** [value.get(key, default)] *)
Definition py_get (value : json) (key : str) (default : json) : outcome json :=
  match value with
  | JObj fields =>
      Returned (match lookup key fields with Some v => v | None => default end)
  | _ => Raised AttributeError
  end.

(** [now + value], for the reading [now] of the clock, a float *)
Definition py_add (now : number py) (value : json) : outcome (number py) :=
  match value with
  | JNum n =>
      match as_float py n with
      | Some x => Returned (add py now x)
      | None => Raised OverflowError
      end
  | JBool b => Returned (add py now (of_bool py b))
  | _ => Raised TypeError
  end.

Definition bind_outcome (A B : Type) (r : outcome A) (k : A -> outcome B)
  : outcome B :=
  match r with
  | Returned a => k a
  | Raised e => Raised e
  end.

(** Lines 173-181 of [send_message]: the text of the first choice. *)
Definition reply_content (result : json) : outcome json :=
  bind_outcome (py_in key_choices result) (fun has_choices =>
  bind_outcome
    (if has_choices then
       bind_outcome (py_item result key_choices) (fun choices =>
       bind_outcome (py_len choices) (fun n => Returned (0 <? n)))
     else Returned false) (fun some_choice =>
  if some_choice then
    bind_outcome (py_item result key_choices) (fun choices =>
    bind_outcome (py_first choices) (fun choice =>
    bind_outcome (py_in key_message choice) (fun has_message =>
    if has_message then
      bind_outcome (py_item choice key_message) (fun message =>
      py_get message key_content (JStr empty_reply))
    else
      bind_outcome (py_in key_text choice) (fun has_text =>
      if has_text then py_item choice key_text
      else Returned (JStr no_reply)))))
  else Returned (JStr no_reply))).

(** The fields of a client. *)
Record client := {
  auth_key : str;
  access_token : json;
  token_expires_at : number py
}.

(** [GigaChatClient(auth_key)] *)
Definition new_client (auth_key : str) : client :=
  {| auth_key := auth_key; access_token := JNull; token_expires_at := of_nat py 0 |}.

(** What a method asks of the world around it. *)
Inductive call :=
| TimeRead
| Uuid4
| OAuthPost (rquid : str) (auth_key : str)
| ChatPost (access_token : json) (message : str).

(** The world around the client, given the calls made before: the clock,
    the identifier drawn by [uuid.uuid4()], and, for each of the two
    requests, the value of [response.json()] or the exception raised by the
    request, by [raise_for_status] or by [json]. *)
Record network := {
  time_time : list call -> number py;
  uuid4 : list call -> str;
  post_oauth : list call -> str -> str -> outcome json;
  post_chat : list call -> json -> str -> outcome json
}.

Variable net : network.

(** A method: from the client and the calls made so far to its result, the
    client as it leaves it, and the calls it makes. *)
Definition method (A : Type) := client -> list call -> outcome A * client * list call.

Definition ret (A : Type) (a : A) : method A := fun self _ => (Returned a, self, []).

Definition raise (A : Type) (e : error) : method A :=
  fun self _ => (Raised e, self, []).

Definition lift (A : Type) (r : outcome A) : method A := fun self _ => (r, self, []).

Definition bind (A B : Type) (m : method A) (k : A -> method B) : method B :=
  fun self history =>
    match m self history with
    | (Returned a, self', made) =>
        let '(r, self'', made') := k a self' (history ++ made) in
        (r, self'', made ++ made')
    | (Raised e, self', made) => (Raised e, self', made)
    end.

Definition get_self : method client := fun self _ => (Returned self, self, []).

Definition set_access_token (value : json) : method unit :=
  fun self _ =>
    (Returned tt,
     {| auth_key := auth_key self; access_token := value;
        token_expires_at := token_expires_at self |}, []).

Definition set_token_expires_at (value : number py) : method unit :=
  fun self _ =>
    (Returned tt,
     {| auth_key := auth_key self; access_token := access_token self;
        token_expires_at := value |}, []).

Definition read_clock : method (number py) :=
  fun self history => (Returned (time_time net history), self, [TimeRead]).

Definition draw_uuid : method str :=
  fun self history => (Returned (uuid4 net history), self, [Uuid4]).

Definition request_token (rquid auth : str) : method json :=
  fun self history => (post_oauth net history rquid auth, self, [OAuthPost rquid auth]).

Definition request_completion (token : json) (message : str) : method json :=
  fun self history => (post_chat net history token message, self, [ChatPost token message]).

Declare Scope method_scope.
Delimit Scope method_scope with met.

Notation "x <- c ;; k" := (bind c (fun x => k))
  (at level 61, c at next level, right associativity) : method_scope.
Notation "c ;; k" := (bind c (fun _ => k))
  (at level 61, right associativity) : method_scope.

Definition get_access_token : method json :=
  (self <- get_self ;;
   valid <-
     (if truthy (access_token self) then
        now <- read_clock ;;
        ret (ltb py now (token_expires_at self))
      else ret false) ;;
   if valid then ret (access_token self)
   else
     rquid <- draw_uuid ;;
     result <- request_token rquid (auth_key self) ;;
     token <- lift (py_get result key_access_token JNull) ;;
     set_access_token token ;;
     if negb (truthy token) then raise json ValueError
     else
       expires_in <- lift (py_get result key_expires_in (JNum (of_nat py 1800))) ;;
       now <- read_clock ;;
       later <- lift (py_add now expires_in) ;;
       set_token_expires_at (sub py later (of_nat py 60)) ;;
       self <- get_self ;;
       ret (access_token self))%met.

Definition send_message (message : str) : method json :=
  (access_token <- get_access_token ;;
   result <- request_completion access_token message ;;
   lift (reply_content result))%met.

Definition is_request (c : call) : bool :=
  match c with
  | OAuthPost _ _ | ChatPost _ _ => true
  | _ => false
  end.

End Client.

Arguments JArr : clear implicits.
Arguments JObj : clear implicits.
Arguments ChatPost : clear implicits.

End GigaChatClient.

(** ** Notions used to state the properties of the client *)

Section ClientNotions.

Variable py : GigaChatClient.arithmetic.
Variable net : GigaChatClient.network py.

(** The calls of the test of the held token: the clock is read only when a
    token is held. *)
Definition token_check_calls (self : GigaChatClient.client py)
  : list (GigaChatClient.call py) :=
  if GigaChatClient.truthy (GigaChatClient.access_token self)
  then [GigaChatClient.TimeRead py] else [].

(** The test of the held token fails: no token, or the clock is not before
    the expiry. *)
Definition token_stale (self : GigaChatClient.client py)
    (history : list (GigaChatClient.call py)) : bool :=
  negb (GigaChatClient.truthy (GigaChatClient.access_token self)
        && GigaChatClient.ltb py (GigaChatClient.time_time net history)
             (GigaChatClient.token_expires_at self)).

(** The calls of a request for a token, after those of the test. *)
Definition token_request_calls (self : GigaChatClient.client py)
    (history : list (GigaChatClient.call py)) : list (GigaChatClient.call py) :=
  token_check_calls self ++
  [GigaChatClient.Uuid4 py;
   GigaChatClient.OAuthPost py
     (GigaChatClient.uuid4 net (history ++ token_check_calls self))
     (GigaChatClient.auth_key self)].

(** The response to that request. *)
Definition token_response (self : GigaChatClient.client py)
    (history : list (GigaChatClient.call py))
  : GigaChatClient.outcome (GigaChatClient.json py) :=
  GigaChatClient.post_oauth net
    (history ++ token_check_calls self ++ [GigaChatClient.Uuid4 py])
    (GigaChatClient.uuid4 net (history ++ token_check_calls self))
    (GigaChatClient.auth_key self).

End ClientNotions.

(** ** Examples for the client *)

(** Whole numbers, as an example of Python numbers: the clock shows whole
    seconds, and no float is made of a number that rounds to 2^1024, which
    the numbers from 2^1024 - 2^970 on do. *)
Definition whole_numbers : GigaChatClient.arithmetic :=
  {| GigaChatClient.number := Z;
     GigaChatClient.as_float :=
       fun n => if (Z.abs n <? 2 ^ 1024 - 2 ^ 970)%Z then Some n else None;
     GigaChatClient.add := Z.add;
     GigaChatClient.sub := Z.sub;
     GigaChatClient.ltb := Z.ltb;
     GigaChatClient.nonzero := fun n => negb (Z.eqb n 0);
     GigaChatClient.of_bool := fun b => if b then 1%Z else 0%Z;
     GigaChatClient.of_nat := Z.of_nat |}.

(** A response with the token [hi] that expires after [seconds]. *)
Definition token_reply (seconds : Z) : GigaChatClient.json whole_numbers :=
  GigaChatClient.JObj whole_numbers
    [(GigaChatClient.key_access_token, GigaChatClient.JStr whole_numbers hi);
     (GigaChatClient.key_expires_in, GigaChatClient.JNum whole_numbers seconds)].

(** A response without token. *)
Definition empty_token_reply : GigaChatClient.json whole_numbers :=
  GigaChatClient.JObj whole_numbers
    [(GigaChatClient.key_expires_in, GigaChatClient.JNum whole_numbers 1800%Z)].

(** A choice with a message and a text. *)
Definition full_choice : list (str * GigaChatClient.json whole_numbers) :=
  [(GigaChatClient.key_text, GigaChatClient.JStr whole_numbers hello_there);
   (GigaChatClient.key_message,
    GigaChatClient.JObj whole_numbers
      [(GigaChatClient.key_content, GigaChatClient.JStr whole_numbers hello_reply)])].

(** A response of the completion service with that choice. *)
Definition chat_reply : GigaChatClient.json whole_numbers :=
  GigaChatClient.JObj whole_numbers
    [(GigaChatClient.key_choices,
      GigaChatClient.JArr whole_numbers [GigaChatClient.JObj whole_numbers full_choice])].

(** A world in which the clock shows 100 seconds and one more after each
    call, the token request is answered by [oauth] and the completion
    request by [chat_reply]. *)
Definition steady_net
    (oauth : GigaChatClient.outcome (GigaChatClient.json whole_numbers))
  : GigaChatClient.network whole_numbers :=
  @GigaChatClient.Build_network whole_numbers
    (fun history => (100 + Z.of_nat (length history))%Z)
    (fun _ => hi)
    (fun _ _ _ => oauth)
    (fun _ _ _ => GigaChatClient.Returned chat_reply).

(** A client that holds the token [hi] until the second [expiry]. *)
Definition holding_client (expiry : Z) : GigaChatClient.client whole_numbers :=
  @GigaChatClient.Build_client whole_numbers hello_there
    (GigaChatClient.JStr whole_numbers hi) expiry.

(** ** More example worlds *)


(** Collaborators whose completion service raises. *)
Definition silent_world : collaborators :=
  {| answer_ok := fun _ _ _ => true;
     send_chat_action_ok := fun _ _ => true;
     send_message_reply := fun _ _ => None;
     generate_speech_reply := fun _ _ => None;
     answer_voice_ok := fun _ _ _ => true |}.

(** Collaborators whose channel sends no text message. *)
Definition deaf_world (reply : str) : collaborators :=
  {| answer_ok := fun _ _ _ => false;
     send_chat_action_ok := fun _ _ => true;
     send_message_reply := fun _ _ => Some reply;
     generate_speech_reply := fun _ _ => None;
     answer_voice_ok := fun _ _ _ => true |}.

(** A choice with a text only. *)
Definition text_choice : list (str * GigaChatClient.json whole_numbers) :=
  [(GigaChatClient.key_text, GigaChatClient.JStr whole_numbers hello_there)].


(** * Facts about the string methods *)

Unset Implicit Arguments.

#[local] Arguments N.eqb : simpl never.
#[local] Arguments N.leb : simpl never.
#[local] Arguments N.ltb : simpl never.

Section StripFacts.

Variable p : char -> bool.

Lemma lstrip_by_length (s : str) : length (lstrip_by p s) <= length s.
Proof.
  induction s as [|c s IH]; simpl; [lia|].
  destruct (p c); simpl; lia.
Qed.

Lemma lstrip_by_head (c : char) (s : str) :
  lstrip_by p (c :: s) = c :: s -> p c = false.
Proof.
  simpl. destruct (p c) eqn:E; [|reflexivity].
  intros H. pose proof (lstrip_by_length s) as L.
  rewrite H in L. simpl in L. lia.
Qed.

Lemma lstrip_by_keep (a : str) (c : char) (b : str) :
  p c = false -> lstrip_by p (a ++ c :: b) = lstrip_by p a ++ c :: b.
Proof.
  intros Hc. induction a as [|x a IH]; simpl.
  - now rewrite Hc.
  - destruct (p x); [exact IH | reflexivity].
Qed.

Lemma lstrip_by_all (a b : str) :
  forallb p a = true -> lstrip_by p (a ++ b) = lstrip_by p b.
Proof.
  induction a as [|x a IH]; simpl; [reflexivity|].
  intros H. apply andb_true_iff in H as [Hx Ha].
  rewrite Hx. now apply IH.
Qed.

Lemma lstrip_by_split (s : str) :
  exists l, s = l ++ lstrip_by p s /\ forallb p l = true.
Proof.
  induction s as [|c s (l & E & Hl)]; simpl.
  - now exists [].
  - destruct (p c) eqn:Hc.
    + exists (c :: l). simpl. rewrite Hc, Hl. now rewrite <- E.
    + now exists [].
Qed.

Lemma lstrip_by_idem (s : str) : lstrip_by p (lstrip_by p s) = lstrip_by p s.
Proof.
  induction s as [|c s IH]; simpl; [reflexivity|].
  destruct (p c) eqn:Hc; [exact IH|]. simpl. now rewrite Hc.
Qed.

Lemma rstrip_by_cons_keep (c : char) (b : str) :
  p c = false -> rstrip_by p (c :: b) = c :: rstrip_by p b.
Proof.
  intros Hc. simpl. destruct (rstrip_by p b); [now rewrite Hc | reflexivity].
Qed.

Lemma rstrip_by_app (a b : str) :
  rstrip_by p (a ++ b) =
  match rstrip_by p b with
  | [] => rstrip_by p a
  | _ :: _ => a ++ rstrip_by p b
  end.
Proof.
  induction a as [|x a IH]; simpl.
  - now destruct (rstrip_by p b).
  - rewrite IH. destruct (rstrip_by p b) as [|y r]; [reflexivity|].
    destruct a; reflexivity.
Qed.

Lemma rstrip_by_keep (a : str) (c : char) (b : str) :
  p c = false -> rstrip_by p (a ++ c :: b) = a ++ c :: rstrip_by p b.
Proof.
  intros Hc. rewrite rstrip_by_app, (rstrip_by_cons_keep c b Hc). reflexivity.
Qed.

Lemma rstrip_by_all (b : str) : forallb p b = true -> rstrip_by p b = [].
Proof.
  induction b as [|x b IH]; simpl; [reflexivity|].
  intros H. apply andb_true_iff in H as [Hx Hb].
  now rewrite (IH Hb), Hx.
Qed.

Lemma rstrip_by_drop (a b : str) :
  forallb p b = true -> rstrip_by p (a ++ b) = rstrip_by p a.
Proof.
  intros H. now rewrite rstrip_by_app, (rstrip_by_all b H).
Qed.

Lemma rstrip_by_split (s : str) :
  exists r, s = rstrip_by p s ++ r /\ forallb p r = true.
Proof.
  induction s as [|c s (r & E & Hr)]; simpl.
  - now exists [].
  - destruct (rstrip_by p s) as [|y t] eqn:Es.
    + destruct (p c) eqn:Hc.
      * exists (c :: s). split; [reflexivity|].
        simpl. rewrite Hc. simpl in E. now rewrite E.
      * exists s. split; [reflexivity|]. simpl in E. now rewrite E.
    + exists r. split; [|exact Hr]. rewrite E at 1. reflexivity.
Qed.

Lemma rstrip_by_idem (s : str) : rstrip_by p (rstrip_by p s) = rstrip_by p s.
Proof.
  induction s as [|c s IH]; simpl; [reflexivity|].
  destruct (rstrip_by p s) as [|y t] eqn:Es.
  - destruct (p c) eqn:Hc; simpl; [reflexivity | now rewrite Hc].
  - change (rstrip_by p (c :: y :: t)) with
      (match rstrip_by p (y :: t) with
       | [] => if p c then [] else [c]
       | r => c :: r
       end).
    now rewrite IH.
Qed.

Lemma lstrip_rstrip_comm (s : str) :
  lstrip_by p (rstrip_by p s) = rstrip_by p (lstrip_by p s).
Proof.
  induction s as [|c s IH]; [reflexivity|].
  destruct (p c) eqn:Hc.
  - change (lstrip_by p (c :: s)) with (if p c then lstrip_by p s else c :: s).
    rewrite Hc, <- IH. simpl.
    destruct (rstrip_by p s) as [|y t]; simpl; now rewrite Hc.
  - rewrite (rstrip_by_cons_keep c s Hc). simpl. rewrite Hc.
    now rewrite (rstrip_by_cons_keep c s Hc).
Qed.

Lemma strip_by_trimmed (s : str) : trimmed_by p (strip_by p s).
Proof.
  unfold trimmed_by, strip_by. split.
  - now rewrite lstrip_rstrip_comm, lstrip_by_idem.
  - apply rstrip_by_idem.
Qed.

Lemma trimmed_by_strip (s : str) : trimmed_by p s -> strip_by p s = s.
Proof.
  intros [L R]. unfold strip_by. now rewrite L.
Qed.

Lemma strip_by_idem (s : str) : strip_by p (strip_by p s) = strip_by p s.
Proof. apply trimmed_by_strip, strip_by_trimmed. Qed.

Lemma strip_by_lstrip (s : str) : strip_by p (lstrip_by p s) = strip_by p s.
Proof. unfold strip_by. now rewrite lstrip_by_idem. Qed.

Lemma strip_by_rstrip (s : str) : strip_by p (rstrip_by p s) = strip_by p s.
Proof.
  unfold strip_by. now rewrite lstrip_rstrip_comm, rstrip_by_idem.
Qed.

Lemma strip_by_drop_l (a b : str) :
  forallb p a = true -> strip_by p (a ++ b) = strip_by p b.
Proof. intros H. unfold strip_by. now rewrite lstrip_by_all. Qed.

Lemma strip_by_drop_r (a b : str) :
  forallb p b = true -> strip_by p (a ++ b) = strip_by p a.
Proof.
  intros H. rewrite <- strip_by_rstrip, rstrip_by_drop by exact H.
  apply strip_by_rstrip.
Qed.

Lemma strip_by_split (s : str) :
  exists l r, s = l ++ strip_by p s ++ r /\ forallb p l = true /\ forallb p r = true.
Proof.
  destruct (lstrip_by_split s) as (l & El & Hl).
  destruct (rstrip_by_split (lstrip_by p s)) as (r & Er & Hr).
  exists l, r. unfold strip_by. now rewrite <- Er, <- El.
Qed.

Lemma strip_by_all (s : str) : forallb p s = true -> strip_by p s = [].
Proof.
  intros H. unfold strip_by.
  rewrite <- (app_nil_r s), lstrip_by_all by exact H. reflexivity.
Qed.

Lemma strip_by_nil_all (s : str) : strip_by p s = [] -> forallb p s = true.
Proof.
  intros H. destruct (strip_by_split s) as (l & r & E & Hl & Hr).
  rewrite H in E. rewrite E. simpl. rewrite forallb_app. now rewrite Hl, Hr.
Qed.

Lemma trimmed_by_head (c : char) (s : str) : trimmed_by p (c :: s) -> p c = false.
Proof. intros [L _]. exact (lstrip_by_head c s L). Qed.

Lemma trimmed_by_app (a m b : str) :
  trimmed_by p a -> a <> [] -> trimmed_by p b -> b <> [] ->
  trimmed_by p (a ++ m ++ b).
Proof.
  intros [La Ra] Na [Lb Rb] Nb. split.
  - destruct a as [|c a]; [congruence|].
    pose proof (lstrip_by_head _ _ La) as Hc. simpl. now rewrite Hc.
  - rewrite app_assoc, rstrip_by_app, Rb.
    destruct b; [congruence | reflexivity].
Qed.

End StripFacts.

Lemma startswith_app (x y : str) : startswith x (x ++ y) = true.
Proof.
  induction x as [|a x IH]; simpl; [reflexivity|].
  now rewrite N.eqb_refl.
Qed.

Lemma startswith_app_r (a x y : str) :
  startswith a x = true -> startswith a (x ++ y) = true.
Proof.
  revert x. induction a as [|c a IH]; intros [|b x]; simpl; try easy.
  intros H. apply andb_true_iff in H as [H1 H2].
  now rewrite H1, (IH _ H2).
Qed.

Lemma startswith_long (a x y : str) :
  length a <= length x -> startswith a (x ++ y) = startswith a x.
Proof.
  revert x. induction a as [|c a IH]; intros [|b x]; simpl; try easy; try lia.
  intros H. rewrite IH by lia. reflexivity.
Qed.

Lemma contains_nil (s : str) : contains [] s = true.
Proof. destruct s; reflexivity. Qed.

Lemma contains_app_l (sub a b : str) :
  contains sub a = true -> contains sub (a ++ b) = true.
Proof.
  induction a as [|c a IH]; simpl.
  - destruct sub; [intros _; apply contains_nil | discriminate].
  - intros H. apply orb_true_iff in H as [H | H].
    + apply (startswith_app_r _ (c :: a) b) in H. simpl in H. now rewrite H.
    + rewrite (IH H). apply orb_true_r.
Qed.

Lemma contains_app_r (sub a b : str) :
  contains sub b = true -> contains sub (a ++ b) = true.
Proof.
  intros H. induction a as [|c a IH]; simpl; [exact H|].
  rewrite IH. apply orb_true_r.
Qed.

Lemma contains_startswith (sub s : str) :
  startswith sub s = true -> contains sub s = true.
Proof. intros H. destruct s; simpl in *; now rewrite H. Qed.

Lemma contains_intro (sub l r : str) : contains sub (l ++ sub ++ r) = true.
Proof.
  apply contains_app_r, contains_startswith, startswith_app.
Qed.

Lemma not_contains_app (sub a b : str) :
  contains sub (a ++ b) = false -> contains sub a = false /\ contains sub b = false.
Proof.
  intros H. split.
  - destruct (contains sub a) eqn:E; [|reflexivity].
    now rewrite (contains_app_l _ _ b E) in H.
  - destruct (contains sub b) eqn:E; [|reflexivity].
    now rewrite (contains_app_r _ a _ E) in H.
Qed.

Lemma not_contains_cons (sub : str) (c : char) (s : str) :
  contains sub (c :: s) = false ->
  startswith sub (c :: s) = false /\ contains sub s = false.
Proof.
  intros H. change (startswith sub (c :: s) || contains sub s = false) in H.
  now apply orb_false_iff in H.
Qed.

(** An occurrence of ['---'] does not go across another character. *)
Lemma startswith_sep_across (a : str) (c : char) (b : str) :
  (45 =? c)%N = false -> startswith sep (a ++ c :: b) = startswith sep a.
Proof.
  intros Hc.
  destruct a as [|x [|y [|z a]]]; simpl; rewrite ?Hc, ?andb_false_r; reflexivity.
Qed.

Lemma contains_sep_across (a : str) (c : char) (b : str) :
  (45 =? c)%N = false ->
  contains sep (a ++ c :: b) = contains sep a || contains sep b.
Proof.
  intros Hc. induction a as [|x a IH].
  - simpl. now rewrite Hc.
  - change (startswith sep ((x :: a) ++ c :: b) || contains sep (a ++ c :: b) =
            startswith sep (x :: a) || contains sep a || contains sep b).
    rewrite IH, (startswith_sep_across (x :: a) c b Hc).
    now rewrite orb_assoc.
Qed.

Lemma split_go_none (sp : str) (m : option nat) (s : str) :
  contains sp s = false -> split_go sp m 0 s = (s, []).
Proof.
  induction s as [|c s IH]; [reflexivity|].
  intros H. apply not_contains_cons in H as [H1 H2].
  change (split_go sp m 0 (c :: s)) with
    (if may_split m && startswith sp (c :: s) then
       ([], let '(p, r) := split_go sp (option_map pred m) (length sp - 1) s in p :: r)
     else let '(p, r) := split_go sp m 0 s in (c :: p, r)).
  now rewrite H1, andb_false_r, (IH H2).
Qed.

Lemma split_go_zero (sp : str) (s : str) : split_go sp (Some 0) 0 s = (s, []).
Proof.
  induction s as [|c s IH]; [reflexivity|].
  change (split_go sp (Some 0) 0 (c :: s)) with
    (let '(p, r) := split_go sp (Some 0) 0 s in (c :: p, r)).
  now rewrite IH.
Qed.

Lemma split_go_skip (sp : str) (m : option nat) (x s : str) :
  split_go sp m (length x) (x ++ s) = split_go sp m 0 s.
Proof.
  induction x as [|c x IH]; [reflexivity|]. exact IH.
Qed.

(** [(pre + '---' + post).split('---', 1)] when the separator does not occur
    before the end of [pre]. *)
Lemma split_sep_first (pre post : str) :
  contains sep (pre ++ [45; 45]%N) = false ->
  split sep (Some 1) (pre ++ sep ++ post) = [pre; post].
Proof.
  unfold split. induction pre as [|c pre IH]; intros H.
  - simpl. now rewrite (split_go_zero sep post).
  - apply not_contains_cons in H as [H1 H2].
    assert (E : startswith sep (c :: pre ++ sep ++ post) = false).
    { replace (c :: pre ++ sep ++ post)
        with ((c :: pre ++ [45; 45]%N) ++ [45]%N ++ post)
        by (simpl; now rewrite <- app_assoc).
      rewrite startswith_long; [exact H1 | simpl; rewrite length_app; simpl; lia]. }
    change (split_go sep (Some 1) 0 ((c :: pre) ++ sep ++ post)) with
      (if may_split (Some 1) && startswith sep (c :: pre ++ sep ++ post) then
         ([], let '(p, r) :=
                split_go sep (option_map pred (Some 1)) (length sep - 1) (pre ++ sep ++ post)
              in p :: r)
       else let '(p, r) := split_go sep (Some 1) 0 (pre ++ sep ++ post) in (c :: p, r)).
    rewrite E, andb_false_r. specialize (IH H2).
    destruct (split_go sep (Some 1) 0 (pre ++ sep ++ post)) as [p r].
    now inversion IH.
Qed.

Lemma occurrences_pos (sub s : str) :
  contains sub s = true -> 1 <= occurrences sub s.
Proof.
  induction s as [|c s IH]; simpl.
  - destruct (startswith sub []); [lia | discriminate].
  - destruct (startswith sub (c :: s)); simpl; [lia | exact IH].
Qed.

(** When ['---'] occurs once, it does not occur before that place. *)
Lemma occurrences_first (pre post : str) :
  occurrences sep (pre ++ sep ++ post) = 1 ->
  contains sep (pre ++ [45; 45]%N) = false.
Proof.
  induction pre as [|c pre IH]; intros H; [reflexivity|].
  pose proof (occurrences_pos sep _ (contains_intro sep pre post)) as P.
  change (occurrences sep ((c :: pre) ++ sep ++ post)) with
    ((if startswith sep (c :: pre ++ sep ++ post) then 1 else 0)
     + occurrences sep (pre ++ sep ++ post)) in H.
  destruct (startswith sep (c :: pre ++ sep ++ post)) eqn:E; [lia|].
  change (startswith sep (c :: pre ++ [45; 45]%N)
          || contains sep (pre ++ [45; 45]%N) = false).
  rewrite IH by lia. rewrite orb_false_r.
  replace (c :: pre ++ sep ++ post)
    with ((c :: pre ++ [45; 45]%N) ++ [45]%N ++ post) in E
    by (simpl; now rewrite <- app_assoc).
  rewrite startswith_long in E; [exact E | simpl; rewrite length_app; simpl; lia].
Qed.

Lemma strip_around_sep (pre post : str) :
  strip (pre ++ sep ++ post) = lstrip_by isspace pre ++ sep ++ rstrip_by isspace post.
Proof.
  unfold strip, strip_by, sep. cbn [app].
  rewrite (lstrip_by_keep isspace pre 45%N) by reflexivity.
  rewrite rstrip_by_keep by reflexivity.
  now rewrite !rstrip_by_cons_keep by reflexivity.
Qed.

Section SplitterFacts.

Variable isalpha : char -> bool.

(** The separator branch, for a reply cut at the first ['---']. *)
Lemma parse_sep_first (pre post : str) :
  contains sep (pre ++ [45; 45]%N) = false ->
  parse_gigachat_response isalpha (pre ++ sep ++ post) =
  Ok (clean_phrase (strip pre), strip post).
Proof.
  intros H. unfold parse_gigachat_response.
  rewrite strip_around_sep, contains_intro.
  rewrite split_sep_first.
  - cbn [length Nat.eqb index nth_error bind_result].
    unfold clean_phrase, strip.
    now rewrite strip_by_lstrip, strip_by_rstrip, strip_by_idem.
  - destruct (lstrip_by_split isspace pre) as (l & E & _).
    rewrite E, <- app_assoc in H.
    now apply not_contains_app in H.
Qed.

End SplitterFacts.

(** ** Lines *)

Lemma split_nl_cons (c : char) (s : str) :
  split nl None (c :: s) =
  if (10 =? c)%N then [] :: split nl None s
  else match split nl None s with
       | p :: r => (c :: p) :: r
       | [] => [[c]]
       end.
Proof.
  unfold split, nl.
  cbn [split_go startswith may_split andb option_map length Nat.sub].
  rewrite andb_true_r.
  destruct (10 =? c)%N; destruct (split_go [10%N] None 0 s); reflexivity.
Qed.

Lemma split_nl_nonempty (s : str) : split nl None s <> [].
Proof. unfold split. now destruct (split_go nl None 0 s). Qed.

Lemma trimmed_lines_unfold (s : str) :
  trimmed_lines s = map strip (filter line_kept (split nl None s)).
Proof. reflexivity. Qed.

Lemma strip_cons_space (c : char) (s : str) :
  isspace c = true -> strip (c :: s) = strip s.
Proof.
  intros H. apply (strip_by_drop_l isspace [c] s). simpl. now rewrite H.
Qed.

Lemma trimmed_lines_cons_nl (s : str) :
  trimmed_lines (10%N :: s) = trimmed_lines s.
Proof. now rewrite !trimmed_lines_unfold, split_nl_cons. Qed.

Lemma trimmed_lines_cons (c : char) (s : str) (p : str) (r : list str) :
  (10 =? c)%N = false -> split nl None s = p :: r ->
  trimmed_lines (c :: s) = map strip (filter line_kept ((c :: p) :: r)).
Proof.
  intros Hc E. now rewrite trimmed_lines_unfold, split_nl_cons, Hc, E.
Qed.

Lemma trimmed_lines_nil (s : str) :
  trimmed_lines s = [] -> forallb isspace s = true.
Proof.
  induction s as [|c s IH]; [reflexivity|].
  destruct (10 =? c)%N eqn:Hc.
  - apply N.eqb_eq in Hc. subst c. rewrite trimmed_lines_cons_nl.
    intros H. simpl. now rewrite (IH H).
  - destruct (split nl None s) as [|p r] eqn:E; [now apply split_nl_nonempty in E|].
    rewrite (trimmed_lines_cons c s p r Hc E).
    rewrite trimmed_lines_unfold, E in IH. cbn [filter] in *.
    unfold line_kept at 1. unfold line_kept at 1 in IH.
    destruct (strip (c :: p)) eqn:Ec; [|discriminate].
    cbn [nonempty is_empty negb]. intros H.
    apply strip_by_nil_all in Ec. cbn [forallb] in Ec.
    apply andb_true_iff in Ec as [Ec Ep].
    cbn [forallb]. rewrite Ec. cbn [andb]. apply IH.
    unfold strip. now rewrite (strip_by_all isspace p Ep).
Qed.

Lemma trimmed_lines_trimmed (s : str) :
  Forall (fun line => trimmed_by isspace line /\ line <> []) (trimmed_lines s).
Proof.
  apply Forall_forall. intros line H.
  rewrite trimmed_lines_unfold in H. apply in_map_iff in H as (x & E & H).
  apply filter_In in H as [_ H]. subst line. split.
  - apply strip_by_trimmed.
  - unfold line_kept in H. now destruct (strip x).
Qed.

Lemma join_cons (sp x y : str) (l : list str) :
  join sp (x :: y :: l) = x ++ sp ++ join sp (y :: l).
Proof. reflexivity. Qed.

Lemma join_trimmed (p : char -> bool) (sp : str) (l : list str) :
  Forall (fun line => trimmed_by p line /\ line <> []) l ->
  trimmed_by p (join sp l) /\ (l <> [] -> join sp l <> []).
Proof.
  induction 1 as [|x l [Tx Nx] Hl [IH1 IH2]]; [now split|].
  destruct l as [|y l]; [now split|].
  rewrite join_cons. split.
  - apply trimmed_by_app; auto. now apply IH2.
  - intros _. now destruct x.
Qed.

Lemma strip_join_lines (l : list str) :
  Forall (fun line => trimmed_by isspace line /\ line <> []) l ->
  strip (join nl l) = join nl l.
Proof.
  intros H. apply trimmed_by_strip. now apply join_trimmed.
Qed.

Section FallbackFacts.

Variable isalpha : char -> bool.

Lemma english_line_nonempty (line : str) :
  english_line isalpha line = true -> is_empty line = false.
Proof. now destruct line. Qed.

Lemma scan_lines_none (lines : list str) (i : nat) (rest : list str)
    (english_text explanation : str) :
  Forall (fun l => english_line isalpha l = false) rest ->
  scan_lines isalpha lines i rest english_text explanation =
  (english_text, explanation).
Proof.
  intros H. revert i. induction H as [|l rest Hl _ IH]; intros i; simpl.
  - reflexivity.
  - now rewrite Hl.
Qed.

Lemma scan_lines_found (done l1 : list str) (line : str) (l2 : list str)
    (english_text explanation : str) :
  Forall (fun l => english_line isalpha l = false) l1 ->
  english_line isalpha line = true ->
  scan_lines isalpha (done ++ l1 ++ line :: l2) (length done) (l1 ++ line :: l2)
    english_text explanation =
  (line, if is_empty l2 then explanation else strip (join nl l2)).
Proof.
  intros H Hline. revert done. induction H as [|l l1 Hl _ IH]; intros done.
  - cbn [app scan_lines]. rewrite Hline. f_equal.
    replace (length done + 1) with (length (done ++ [line]))
      by (rewrite length_app; reflexivity).
    replace (done ++ line :: l2) with ((done ++ [line]) ++ l2)
      by now rewrite <- app_assoc.
    rewrite skipn_app, skipn_all, Nat.sub_diag. cbn [skipn app].
    destruct l2 as [|x l2]; cbn [is_empty]; rewrite !length_app; cbn [length].
    + destruct (Nat.ltb_spec (length done + 1) (length done + 1 + 0));
        [lia | reflexivity].
    + destruct (Nat.ltb_spec (length done + 1) (length done + 1 + S (length l2)));
        [reflexivity | lia].
  - cbn [app scan_lines]. rewrite Hl.
    specialize (IH (done ++ [l])).
    rewrite <- app_assoc, length_app, Nat.add_1_r in IH. exact IH.
Qed.

(** The fallback branch when a line passes the test. *)
Lemma parse_fallback_found (raw : str) (l1 : list str) (line : str) (l2 : list str) :
  contains sep (strip raw) = false ->
  trimmed_lines (strip raw) = l1 ++ line :: l2 ->
  Forall (fun l => english_line isalpha l = false) l1 ->
  english_line isalpha line = true ->
  parse_gigachat_response isalpha raw = Ok (clean_phrase line, join nl l2).
Proof.
  intros Hsep Hlines Hl1 Hline. unfold parse_gigachat_response.
  rewrite Hsep, Hlines.
  pose proof (scan_lines_found [] l1 line l2 [] [] Hl1 Hline) as S.
  cbn [app length] in S. rewrite S.
  rewrite (english_line_nonempty line Hline). cbn [bind_result].
  unfold clean_phrase. do 2 f_equal.
  pose proof (trimmed_lines_trimmed (strip raw)) as T.
  rewrite Hlines in T. apply Forall_app in T as [_ T].
  apply Forall_inv_tail in T.
  destruct l2 as [|x l2]; [reflexivity|]. cbn [is_empty].
  now rewrite !strip_join_lines.
Qed.

(** The fallback branch when no line passes the test. *)
Lemma parse_fallback_default (raw : str) :
  contains sep (strip raw) = false ->
  Forall (fun l => english_line isalpha l = false) (trimmed_lines (strip raw)) ->
  parse_gigachat_response isalpha raw =
  Ok (clean_phrase (hd [] (trimmed_lines (strip raw))),
      join nl (tl (trimmed_lines (strip raw)))).
Proof.
  intros Hsep Hall. unfold parse_gigachat_response.
  rewrite Hsep.
  rewrite (scan_lines_none _ 0 _ [] [] Hall). cbn [is_empty].
  pose proof (trimmed_lines_trimmed (strip raw)) as T.
  destruct (trimmed_lines (strip raw)) as [|x rest] eqn:E.
  - cbn [nonempty is_empty negb bind_result length Nat.ltb Nat.leb hd tl join].
    apply trimmed_lines_nil in E.
    apply (strip_by_all isspace) in E. fold (strip (strip raw)) in E.
    unfold strip in E. rewrite strip_by_idem in E. fold (strip raw) in E.
    now rewrite E.
  - cbn [nonempty is_empty negb index nth_error bind_result hd tl skipn].
    unfold clean_phrase. do 2 f_equal.
    apply Forall_inv_tail in T.
    destruct rest as [|y rest]; [reflexivity|].
    cbn [length Nat.ltb Nat.leb].
    now rewrite !strip_join_lines.
Qed.

(** With the Unicode table, which has no other alphabetic character below
    128, the Latin letters of the test are the letters A-Z and a-z. *)
Lemma is_latin_ascii_letter (c : char) :
  (forall x, (x < 128)%N -> isalpha x = ascii_letter x) ->
  is_latin isalpha c = ascii_letter c.
Proof.
  intros H. unfold is_latin. destruct (N.ltb_spec c 128) as [L | L].
  - rewrite (H c L). apply andb_true_r.
  - rewrite andb_false_r. unfold ascii_letter.
    replace (c <=? 90)%N with false by (symmetry; apply N.leb_gt; lia).
    replace (c <=? 122)%N with false by (symmetry; apply N.leb_gt; lia).
    now rewrite !andb_false_r.
Qed.

End FallbackFacts.

(** ** Trimming the reply does not change its lines *)

Lemma kept_cons (x : str) (rs : list str) :
  map strip (filter line_kept (x :: rs)) =
  if nonempty (strip x) then strip x :: map strip (filter line_kept rs)
  else map strip (filter line_kept rs).
Proof.
  cbn [filter]. change (line_kept x) with (nonempty (strip x)).
  now destruct (nonempty (strip x)).
Qed.

Lemma trimmed_lines_cons_space (c : char) (s : str) :
  isspace c = true -> trimmed_lines (c :: s) = trimmed_lines s.
Proof.
  intros H. destruct (10 =? c)%N eqn:Hc.
  - apply N.eqb_eq in Hc. subst c. apply trimmed_lines_cons_nl.
  - destruct (split nl None s) as [|p r] eqn:E; [now apply split_nl_nonempty in E|].
    rewrite (trimmed_lines_cons c s p r Hc E), trimmed_lines_unfold, E.
    now rewrite !kept_cons, (strip_cons_space c p H).
Qed.

Lemma trimmed_lines_lstrip (s : str) :
  trimmed_lines (lstrip_by isspace s) = trimmed_lines s.
Proof.
  induction s as [|c s IH]; [reflexivity|]. simpl.
  destruct (isspace c) eqn:Hc; [|reflexivity].
  now rewrite IH, (trimmed_lines_cons_space c s Hc).
Qed.

Lemma split_nl_space (r : str) :
  forallb isspace r = true ->
  Forall (fun x => forallb isspace x = true) (split nl None r).
Proof.
  induction r as [|c r IH]; intros H.
  - repeat constructor.
  - cbn [forallb] in H. apply andb_true_iff in H as [Hc Hr]. specialize (IH Hr).
    rewrite split_nl_cons. destruct (10 =? c)%N.
    + now constructor.
    + destruct (split nl None r) as [|p rs]; [repeat constructor; simpl; now rewrite Hc|].
      inversion IH; subst. constructor; [|assumption]. simpl. now rewrite Hc.
Qed.

Lemma filter_line_kept_space (rs : list str) :
  Forall (fun x => forallb isspace x = true) rs -> filter line_kept rs = [].
Proof.
  induction 1 as [|x rs Hx _ IH]; [reflexivity|]. cbn [filter].
  unfold line_kept at 1. unfold strip. now rewrite (strip_by_all isspace x Hx).
Qed.

Lemma split_nl_app_space (a r : str) :
  forallb isspace r = true ->
  match split nl None (a ++ r), split nl None a with
  | p :: rs, p' :: rs' =>
      (forall u, strip (u ++ p) = strip (u ++ p')) /\
      map strip (filter line_kept rs) = map strip (filter line_kept rs')
  | _, _ => False
  end.
Proof.
  intros Hr. induction a as [|c a IH].
  - pose proof (split_nl_space r Hr) as F. cbn [app].
    destruct (split nl None r) as [|p rs] eqn:E; [now apply split_nl_nonempty in E|].
    inversion F; subst. change (split nl None []) with [@nil char].
    split.
    + intros u. rewrite app_nil_r. now apply (strip_by_drop_r isspace).
    + now rewrite filter_line_kept_space.
  - change ((c :: a) ++ r) with (c :: a ++ r). rewrite !split_nl_cons.
    destruct (split nl None (a ++ r)) as [|p rs]; [contradiction|].
    destruct (split nl None a) as [|p' rs']; [contradiction|].
    destruct IH as [Hu Ht]. destruct (10 =? c)%N.
    + split; [reflexivity|].
      pose proof (Hu []) as H0. cbn [app] in H0.
      now rewrite !kept_cons, H0, Ht.
    + split; [|exact Ht]. intros u.
      specialize (Hu (u ++ [c])). now rewrite <- !app_assoc in Hu.
Qed.

Lemma trimmed_lines_drop_space (a r : str) :
  forallb isspace r = true -> trimmed_lines (a ++ r) = trimmed_lines a.
Proof.
  intros Hr. pose proof (split_nl_app_space a r Hr) as H.
  rewrite !trimmed_lines_unfold.
  destruct (split nl None (a ++ r)) as [|p rs]; [contradiction|].
  destruct (split nl None a) as [|p' rs']; [contradiction|].
  destruct H as [Hu Ht].
  pose proof (Hu []) as H0. cbn [app] in H0.
  now rewrite !kept_cons, H0, Ht.
Qed.

(** The lines of the trimmed reply are the lines of the reply. *)
Lemma trimmed_lines_strip (s : str) : trimmed_lines (strip s) = trimmed_lines s.
Proof.
  unfold strip, strip_by.
  destruct (rstrip_by_split isspace (lstrip_by isspace s)) as (r & E & Hr).
  rewrite <- (trimmed_lines_lstrip s). rewrite E at 2.
  now rewrite trimmed_lines_drop_space.
Qed.

Lemma not_contains_strip_by (p : char -> bool) (sub s : str) :
  contains sub s = false -> contains sub (strip_by p s) = false.
Proof.
  intros H. destruct (strip_by_split p s) as (l & r & E & _).
  rewrite E in H. apply not_contains_app in H as [_ H].
  now apply not_contains_app in H.
Qed.

(** ** Words *)

Lemma infix_cons (c : char) (x s : str) : infix x s -> infix x (c :: s).
Proof. intros (l & r & E). exists (c :: l), r. now rewrite E. Qed.

Lemma not_contains_infix (sub x s : str) :
  infix x s -> contains sub s = false -> contains sub x = false.
Proof.
  intros (l & r & E) H. rewrite E in H.
  apply not_contains_app in H as [_ H]. now apply not_contains_app in H.
Qed.

Lemma Forall_cons_word (P : str -> Prop) (w : str) (ws : list str) :
  (w <> [] -> P w) -> Forall P ws -> Forall P (cons_word w ws).
Proof.
  intros Hw Hws. destruct w; [exact Hws|]. constructor; [|exact Hws].
  now apply Hw.
Qed.

Lemma words_go_spec (s : str) :
  forallb (fun c => negb (isspace c)) (fst (words_go s)) = true /\
  Forall word (snd (words_go s)) /\
  (exists r, s = fst (words_go s) ++ r) /\
  Forall (fun x => infix x s) (snd (words_go s)).
Proof.
  induction s as [|c s (H1 & H2 & (r & H3) & H4)]; simpl.
  - repeat split; try constructor. now exists [].
  - destruct (words_go s) as [w ws]. cbn [fst snd] in *.
    destruct (isspace c) eqn:Hc; cbn [fst snd].
    + repeat split.
      * apply Forall_cons_word; [|exact H2]. intros N. now split.
      * now exists (c :: s).
      * apply Forall_cons_word.
        -- intros _. exists [c], r. now rewrite H3 at 1.
        -- eapply Forall_impl; [|exact H4]. intros x. apply infix_cons.
    + repeat split.
      * simpl. now rewrite Hc.
      * exact H2.
      * exists r. now rewrite H3 at 1.
      * eapply Forall_impl; [|exact H4]. intros x. apply infix_cons.
Qed.

Lemma split_ws_words (s : str) : Forall word (split_ws s).
Proof.
  unfold split_ws. destruct (words_go_spec s) as (H1 & H2 & _).
  destruct (words_go s) as [w ws]. cbn [fst snd] in *.
  apply Forall_cons_word; [|exact H2]. intros N. now split.
Qed.

Lemma split_ws_infix (s : str) : Forall (fun x => infix x s) (split_ws s).
Proof.
  unfold split_ws. destruct (words_go_spec s) as (_ & _ & (r & H3) & H4).
  destruct (words_go s) as [w ws]. cbn [fst snd] in *.
  apply Forall_cons_word; [|exact H4]. intros _. exists [], r. exact H3.
Qed.

Lemma words_go_word (w s : str) :
  forallb (fun c => negb (isspace c)) w = true ->
  words_go (w ++ s) = (w ++ fst (words_go s), snd (words_go s)).
Proof.
  induction w as [|c w IH]; intros H.
  - cbn [app]. now destruct (words_go s).
  - cbn [forallb] in H. apply andb_true_iff in H as [Hc Hw].
    cbn [app words_go]. rewrite (IH Hw).
    apply negb_true_iff in Hc. now rewrite Hc.
Qed.

Lemma words_go_join (ws : list str) :
  Forall word ws ->
  words_go (join space ws) =
  match ws with
  | [] => ([], [])
  | w :: rest => (w, rest)
  end.
Proof.
  induction 1 as [|w ws [Nw Hw] Hws IH]; [reflexivity|].
  destruct ws as [|y ws].
  - cbn [join]. rewrite <- (app_nil_r w) at 1.
    rewrite (words_go_word w [] Hw). cbn [words_go fst snd].
    now rewrite app_nil_r.
  - rewrite join_cons, (words_go_word w _ Hw).
    change (space ++ join space (y :: ws)) with (32%N :: join space (y :: ws)).
    cbn [words_go]. rewrite IH.
    change (isspace 32%N) with true. cbn [fst snd].
    inversion Hws as [|? ? [Ny _] _]; subst.
    rewrite app_nil_r. now destruct y.
Qed.

(** Collapsing the whitespace of a collapsed string changes nothing. *)
Lemma split_ws_join (ws : list str) :
  Forall word ws -> split_ws (join space ws) = ws.
Proof.
  intros H. unfold split_ws. rewrite (words_go_join ws H).
  destruct H as [|w ws [Nw _] _]; [reflexivity|]. now destruct w.
Qed.

Lemma word_trimmed (w : str) : word w -> trimmed_by isspace w /\ w <> [].
Proof.
  intros [N H]. split; [|exact N]. split.
  - destruct w as [|c w]; [reflexivity|]. simpl in *.
    apply andb_true_iff in H as [Hc _]. apply negb_true_iff in Hc.
    now rewrite Hc.
  - clear N. induction w as [|c w IH]; [reflexivity|].
    cbn [forallb] in H. apply andb_true_iff in H as [Hc Hw].
    apply negb_true_iff in Hc.
    now rewrite rstrip_by_cons_keep, (IH Hw).
Qed.

Lemma join_words_trimmed (ws : list str) :
  Forall word ws -> trimmed_by isspace (join space ws).
Proof.
  intros H. apply join_trimmed.
  eapply Forall_impl; [|exact H]. apply word_trimmed.
Qed.

Lemma join_words_no_sep (ws : list str) :
  Forall (fun w => contains sep w = false) ws ->
  contains sep (join space ws) = false.
Proof.
  induction 1 as [|w ws Hw Hws IH]; [reflexivity|].
  destruct ws as [|y ws]; [exact Hw|].
  rewrite join_cons.
  change (space ++ join space (y :: ws)) with (32%N :: join space (y :: ws)).
  rewrite contains_sep_across by reflexivity. now rewrite Hw, IH.
Qed.

Lemma contains_char (c : char) (s : str) :
  contains [c] s = existsb (N.eqb c) s.
Proof.
  induction s as [|x s IH]; [reflexivity|].
  cbn [contains startswith existsb]. now rewrite andb_true_r, IH.
Qed.

Lemma join_words_no_nl (ws : list str) :
  Forall word ws -> contains nl (join space ws) = false.
Proof.
  intros H. unfold nl. rewrite contains_char.
  induction H as [|w ws [_ Hw] Hws IH]; [reflexivity|].
  assert (E : @existsb char (N.eqb 10) w = false).
  { clear -Hw. induction w as [|c w IH]; [reflexivity|].
    cbn [forallb existsb] in *. apply andb_true_iff in Hw as [Hc Hw].
    rewrite (IH Hw), orb_false_r. destruct (10 =? c)%N eqn:E; [|reflexivity].
    apply N.eqb_eq in E. subst c. discriminate. }
  destruct ws as [|y ws]; [exact E|].
  rewrite join_cons, existsb_app, E.
  change (space ++ join space (y :: ws)) with (32%N :: join space (y :: ws)).
  cbn [existsb orb]. exact IH.
Qed.

Lemma split_ws_cons_space (c : char) (s : str) :
  isspace c = true -> split_ws (c :: s) = split_ws s.
Proof.
  intros H. unfold split_ws. cbn [words_go].
  destruct (words_go s) as [w ws]. now rewrite H.
Qed.

Lemma words_go_drop_space (a r : str) :
  forallb isspace r = true -> words_go (a ++ r) = words_go a.
Proof.
  intros H. induction a as [|c a IH].
  - cbn [app]. induction r as [|c r IH]; [reflexivity|].
    cbn [forallb] in H. apply andb_true_iff in H as [Hc Hr].
    cbn [words_go]. now rewrite (IH Hr), Hc.
  - cbn [app words_go]. now rewrite IH.
Qed.

Lemma split_ws_lstrip (s : str) : split_ws (lstrip_by isspace s) = split_ws s.
Proof.
  induction s as [|c s IH]; [reflexivity|]. cbn [lstrip_by].
  destruct (isspace c) eqn:Hc; [|reflexivity].
  now rewrite (split_ws_cons_space c s Hc).
Qed.

(** [s.split()] does not see the whitespace around [s]. *)
Lemma split_ws_strip (s : str) : split_ws (strip s) = split_ws s.
Proof.
  unfold strip, strip_by.
  destruct (rstrip_by_split isspace (lstrip_by isspace s)) as (r & E & Hr).
  rewrite <- (split_ws_lstrip s). rewrite E at 2.
  unfold split_ws. now rewrite words_go_drop_space.
Qed.

(** ** The shape of what the splitter returns *)

Lemma startswith_inv (a s : str) :
  startswith a s = true -> exists t, s = a ++ t.
Proof.
  revert s. induction a as [|c a IH]; intros s H.
  - now exists s.
  - destruct s as [|b s]; [discriminate|]. cbn [startswith] in H.
    apply andb_true_iff in H as [Hc H]. apply N.eqb_eq in Hc. subst b.
    destruct (IH s H) as [t E]. exists t. now rewrite E.
Qed.

(** A string that contains ['---'] can be cut at its first occurrence. *)
Lemma contains_first (s : str) :
  contains sep s = true ->
  exists pre post, s = pre ++ sep ++ post /\ contains sep (pre ++ [45; 45]%N) = false.
Proof.
  induction s as [|c s IH]; [discriminate|]. intros H.
  destruct (startswith sep (c :: s)) eqn:E.
  - destruct (startswith_inv sep (c :: s) E) as [post P].
    exists [], post. now split.
  - change (startswith sep (c :: s) || contains sep s = true) in H.
    rewrite E in H. destruct (IH H) as (pre & post & P & F).
    exists (c :: pre), post. split; [now rewrite P|].
    change (startswith sep (c :: pre ++ [45; 45]%N)
            || contains sep (pre ++ [45; 45]%N) = false).
    rewrite F, orb_false_r. rewrite P in E.
    replace (c :: pre ++ sep ++ post)
      with ((c :: pre ++ [45; 45]%N) ++ [45]%N ++ post) in E
      by (simpl; now rewrite <- app_assoc).
    rewrite startswith_long in E; [exact E | simpl; rewrite length_app; simpl; lia].
Qed.

Lemma split_nl_infix (s : str) :
  (exists t, s = hd [] (split nl None s) ++ t) /\
  Forall (fun x => infix x s) (split nl None s).
Proof.
  induction s as [|c s [[t P] F]].
  - split; [now exists []|]. repeat constructor. now exists [], [].
  - rewrite split_nl_cons. destruct (10 =? c)%N.
    + split; [now exists (c :: s)|]. constructor.
      * now exists [], (c :: s).
      * eapply Forall_impl; [|exact F]. intros x. apply infix_cons.
    + destruct (split nl None s) as [|p r].
      * split; [now exists s|]. repeat constructor. now exists [], s.
      * cbn [hd] in *. subst s. inversion F; subst. split.
        -- now exists t.
        -- constructor.
           ++ now exists [], t.
           ++ eapply Forall_impl; [|eassumption]. intros x. apply infix_cons.
Qed.

Lemma trimmed_lines_no_sep (s : str) :
  contains sep s = false ->
  Forall (fun line => contains sep line = false) (trimmed_lines s).
Proof.
  intros H. apply Forall_forall. intros line L.
  rewrite trimmed_lines_unfold in L. apply in_map_iff in L as (x & E & L).
  apply filter_In in L as [L _]. subst line.
  apply not_contains_strip_by.
  destruct (split_nl_infix s) as [_ F].
  rewrite Forall_forall in F. exact (not_contains_infix sep x s (F x L) H).
Qed.

Lemma clean_phrase_spec (x : str) :
  contains sep x = false ->
  contains sep (clean_phrase x) = false /\
  trimmed_by isspace (clean_phrase x) /\
  contains nl (clean_phrase x) = false /\
  join space (split_ws (clean_phrase x)) = clean_phrase x.
Proof.
  intros H. unfold clean_phrase.
  set (y := strip (strip_chars brackets x)).
  assert (Hy : contains sep y = false)
    by (unfold y, strip, strip_chars; now apply not_contains_strip_by, not_contains_strip_by).
  pose proof (split_ws_words y) as W.
  repeat split.
  - apply join_words_no_sep.
    eapply Forall_impl; [|exact (split_ws_infix y)].
    intros w I. exact (not_contains_infix sep w y I Hy).
  - now apply join_words_trimmed.
  - now apply join_words_trimmed.
  - now apply join_words_no_nl.
  - now rewrite split_ws_join.
Qed.

Lemma first_match (A : Type) (f : A -> bool) (l : list A) :
  Forall (fun x => f x = false) l \/
  exists l1 x l2, l = l1 ++ x :: l2 /\ Forall (fun x => f x = false) l1 /\ f x = true.
Proof.
  induction l as [|a l IH]; [now left|].
  destruct (f a) eqn:E.
  - right. exists [], a, l. now repeat split.
  - destruct IH as [F | (l1 & x & l2 & P & F & T)].
    + left. now constructor.
    + right. exists (a :: l1), x, l2. repeat split; [now rewrite P | now constructor | exact T].
Qed.

Section ShapeFacts.

Variable isalpha : char -> bool.

Lemma parse_strip (raw : str) :
  parse_gigachat_response isalpha (strip raw) = parse_gigachat_response isalpha raw.
Proof.
  unfold parse_gigachat_response, strip. now rewrite strip_by_idem.
Qed.

(** What the splitter returns: the phrase is a cleaned text without the
    separator, and the explanation is trimmed. *)
Lemma parse_shape (raw p e : str) :
  parse_gigachat_response isalpha raw = Ok (p, e) ->
  (exists x, p = clean_phrase x /\ contains sep x = false) /\
  trimmed_by isspace e.
Proof.
  intros H. destruct (contains sep (strip raw)) eqn:C.
  - destruct (contains_first _ C) as (pre & post & E & F).
    rewrite <- parse_strip, E, (parse_sep_first isalpha pre post F) in H.
    inversion H; subst. split; [|apply strip_by_trimmed].
    exists (strip pre). split; [reflexivity|].
    apply not_contains_strip_by. now apply not_contains_app in F.
  - pose proof (trimmed_lines_no_sep _ C) as S.
    pose proof (trimmed_lines_trimmed (strip raw)) as T.
    destruct (first_match _ (english_line isalpha) (trimmed_lines (strip raw)))
      as [F | (l1 & x & l2 & P & F & Hx)].
    + rewrite (parse_fallback_default isalpha raw C F) in H.
      inversion H; subst. destruct (trimmed_lines (strip raw)) as [|y rest].
      * split; [now exists [] | now split].
      * inversion S; subst. inversion T; subst. cbn [hd tl]. split.
        -- now exists y.
        -- now apply join_trimmed.
    + rewrite (parse_fallback_found isalpha raw l1 x l2 C P F Hx) in H.
      inversion H; subst. rewrite P in S, T.
      apply Forall_app in S as [_ S]. apply Forall_app in T as [_ T].
      inversion S; subst. inversion T; subst. split.
      * now exists x.
      * now apply join_trimmed.
Qed.

(** Splitting the text reply composed from a clean pair gives the pair
    back, when the phrase has no bracket at either end. *)
Lemma reparse (p e : str) :
  (exists x, p = clean_phrase x /\ contains sep x = false) ->
  trimmed_by isspace e ->
  p <> [] ->
  strip_chars brackets p = p ->
  parse_gigachat_response isalpha (compose p e) = Ok (p, e).
Proof.
  intros (x & Ep & Hx) Te Np Hb.
  destruct (clean_phrase_spec x Hx) as (Hsep & Tp & Hnl & Hj).
  rewrite <- Ep in Hsep, Tp, Hnl, Hj.
  assert (Hc : clean_phrase p = p).
  { unfold clean_phrase. rewrite Hb. unfold strip.
    rewrite (trimmed_by_strip isspace p Tp). exact Hj. }
  unfold compose. destruct e as [|c e]; cbn [nonempty is_empty negb].
  - assert (Hs : strip p = p) by exact (trimmed_by_strip isspace p Tp).
    assert (L : trimmed_lines (strip p) = [p]).
    { rewrite Hs, trimmed_lines_unfold. unfold split.
      rewrite (split_go_none nl None p Hnl). cbn [filter].
      unfold line_kept. rewrite Hs. destruct p; [congruence|].
      cbn [nonempty is_empty negb map]. now rewrite Hs. }
    destruct (english_line isalpha p) eqn:E.
    + rewrite (parse_fallback_found isalpha p [] p []); try assumption.
      * now rewrite Hc.
      * now rewrite Hs.
      * constructor.
    + rewrite parse_fallback_default.
      * rewrite L. cbn [hd tl join]. now rewrite Hc.
      * now rewrite Hs.
      * rewrite L. now repeat constructor.
  - replace (p ++ reply_rule ++ c :: e)
      with ((p ++ [10; 10]%N) ++ sep ++ ([10; 10]%N ++ c :: e))
      by (now rewrite <- app_assoc).
    rewrite parse_sep_first.
    + unfold strip.
      rewrite (strip_by_drop_r isspace p [10; 10]%N) by reflexivity.
      rewrite strip_by_drop_l by reflexivity.
      rewrite (trimmed_by_strip isspace p Tp), (trimmed_by_strip isspace _ Te).
      now rewrite Hc.
    + rewrite <- app_assoc.
      change ([10; 10]%N ++ [45; 45]%N) with (10%N :: [10; 45; 45]%N).
      rewrite contains_sep_across by reflexivity. now rewrite Hsep.
Qed.

End ShapeFacts.

(** * The properties of the splitter *)

Section SplitterProperties.

Variable isalpha : char -> bool.

(** C1. For a reply in which the separator ['---'] occurs exactly once, cut
    as [pre ++ sep ++ post], the splitter returns as phrase the text before
    the separator, trimmed, with the brackets stripped from its ends and
    every run of whitespace collapsed to one space, and as explanation the
    text after the separator, trimmed and otherwise unchanged. *)
Theorem parse_separator_once (raw pre post : str) :
  occurrences sep raw = 1 ->
  raw = pre ++ sep ++ post ->
  parse_gigachat_response isalpha raw =
  Ok (join space (split_ws (strip_chars brackets (strip pre))), strip post).
Proof.
  intros H E. subst raw.
  rewrite (parse_sep_first isalpha pre post (occurrences_first pre post H)).
  unfold clean_phrase. now rewrite split_ws_strip.
Qed.

(** C2. For a reply without ['---'], the reply is split into its non-empty
    trimmed lines; the first line that has an ASCII letter, no Cyrillic
    character and no ['['] in front is the selected phrase and the lines
    after it, joined by newlines, are the explanation; when no line passes,
    the first line is the selected phrase and the other lines are the
    explanation.  The selected phrase is returned cleaned (lines 283-286). *)
Theorem parse_fallback (raw : str) :
  contains sep raw = false ->
  (forall l1 line l2,
     trimmed_lines raw = l1 ++ line :: l2 ->
     Forall (fun l => english_line isalpha l = false) l1 ->
     english_line isalpha line = true ->
     parse_gigachat_response isalpha raw = Ok (clean_phrase line, join nl l2)) /\
  (Forall (fun l => english_line isalpha l = false) (trimmed_lines raw) ->
   parse_gigachat_response isalpha raw =
   Ok (clean_phrase (hd [] (trimmed_lines raw)), join nl (tl (trimmed_lines raw)))).
Proof.
  intros H.
  assert (C : contains sep (strip raw) = false).
  { destruct (strip_by_split isspace raw) as (l & r & E & _).
    fold (strip raw) in E. rewrite E in H.
    apply not_contains_app in H as [_ H]. now apply not_contains_app in H. }
  rewrite <- (trimmed_lines_strip raw). split.
  - intros l1 line l2 E F T.
    exact (parse_fallback_found isalpha raw l1 line l2 C E F T).
  - exact (parse_fallback_default isalpha raw C).
Qed.

(** C7, as amended.  With a separator, the explanation is the text after
    the first separator with whitespace removed at its two ends and nothing
    else changed.  Without a separator, the non-empty trimmed lines of the
    reply are cut at the phrase line, which is the first line that passes
    the test of the scan, or the first line when none does: the phrase is
    that line cleaned, and the explanation is the lines after it, all of
    them, in their order and joined by one newline each.  Blank lines and
    the whitespace around each line are not kept there.  A reply without
    lines has an empty phrase and an empty explanation. *)
Theorem explanation_structure (raw p e : str) :
  parse_gigachat_response isalpha raw = Ok (p, e) ->
  (forall pre post,
     raw = pre ++ sep ++ post ->
     contains sep (pre ++ [45; 45]%N) = false ->
     trimmed_by isspace e /\
     exists l r, post = l ++ e ++ r /\
                 forallb isspace l = true /\ forallb isspace r = true) /\
  (contains sep raw = false ->
   (trimmed_lines raw = [] /\ p = [] /\ e = []) \/
   exists l1 line l2,
     trimmed_lines raw = l1 ++ line :: l2 /\
     Forall (fun l => english_line isalpha l = false) l1 /\
     (english_line isalpha line = true \/
      l1 = [] /\ Forall (fun l => english_line isalpha l = false) (line :: l2)) /\
     p = clean_phrase line /\
     e = join nl l2).
Proof.
  intros H. split.
  - intros pre post E F. subst raw.
    rewrite (parse_sep_first isalpha pre post F) in H. inversion H; subst.
    split; [apply strip_by_trimmed | apply strip_by_split].
  - intros C. apply (not_contains_strip_by isspace) in C. fold (strip raw) in C.
    rewrite <- (trimmed_lines_strip raw).
    destruct (first_match _ (english_line isalpha) (trimmed_lines (strip raw)))
      as [F | (l1 & x & l2 & P & F & Hx)].
    + rewrite (parse_fallback_default isalpha raw C F) in H. inversion H; subst.
      destruct (trimmed_lines (strip raw)) as [|y rest].
      * left. now repeat split.
      * right. exists [], y, rest. cbn [hd tl app].
        split; [reflexivity|]. split; [constructor|].
        split; [right; now split|]. now split.
    + rewrite (parse_fallback_found isalpha raw l1 x l2 C P F Hx) in H.
      inversion H; subst.
      right. exists l1, x, l2.
      split; [exact P|]. split; [exact F|]. split; [now left|]. now split.
Qed.

(** C8, as amended.  For a pair (phrase, explanation) returned by the
    splitter whose phrase is non-empty, has no Cyrillic character, and has
    no bracket at either end ([strip('[]')] leaves it unchanged), splitting
    the text reply composed from the pair returns the same pair. *)
Theorem split_compose_idempotent (raw p e : str) :
  parse_gigachat_response isalpha raw = Ok (p, e) ->
  p <> [] ->
  has_cyrillic p = false ->
  strip_chars brackets p = p ->
  parse_gigachat_response isalpha (compose p e) = Ok (p, e).
Proof.
  intros H Np _ Hb. destruct (parse_shape isalpha raw p e H) as [Hp He].
  now apply reparse.
Qed.

(** C10. The splitter returns a pair for every string and never raises;
    when the reply has no separator and no non-empty line, where the first
    line could not be read, the pair is two empty strings, as it is for
    every string of whitespace only. *)
Theorem parse_total :
  (forall raw, exists p e, parse_gigachat_response isalpha raw = Ok (p, e)) /\
  (forall raw,
     contains sep raw = false -> trimmed_lines raw = [] ->
     parse_gigachat_response isalpha raw = Ok ([], [])) /\
  (forall raw,
     forallb isspace raw = true ->
     parse_gigachat_response isalpha raw = Ok ([], [])).
Proof.
  assert (D : forall raw,
             contains sep (strip raw) = false -> trimmed_lines (strip raw) = [] ->
             parse_gigachat_response isalpha raw = Ok ([], [])).
  { intros raw C L. rewrite (parse_fallback_default isalpha raw C).
    - now rewrite L.
    - rewrite L. constructor. }
  repeat split.
  - intros raw. destruct (contains sep (strip raw)) eqn:C.
    + destruct (contains_first _ C) as (pre & post & E & F).
      rewrite <- parse_strip, E, (parse_sep_first isalpha pre post F). eauto.
    + destruct (first_match _ (english_line isalpha) (trimmed_lines (strip raw)))
        as [F | (l1 & x & l2 & P & F & Hx)].
      * rewrite (parse_fallback_default isalpha raw C F). eauto.
      * rewrite (parse_fallback_found isalpha raw l1 x l2 C P F Hx). eauto.
  - intros raw C L. apply D.
    + now apply (not_contains_strip_by isspace).
    + now rewrite trimmed_lines_strip.
  - intros raw W. apply D; unfold strip; now rewrite (strip_by_all isspace raw W).
Qed.

End SplitterProperties.

(** * Facts about the orchestrator *)

Lemma is_cyrillic_not_space (c : char) :
  is_cyrillic c = true -> isspace c = false.
Proof.
  unfold is_cyrillic. intros H. apply andb_true_iff in H as [H1 H2].
  apply N.leb_le in H1, H2. unfold isspace.
  replace (c <=? 13)%N with false by (symmetry; apply N.leb_gt; lia).
  replace (c <=? 32)%N with false by (symmetry; apply N.leb_gt; lia).
  replace (8192 <=? c)%N with false by (symmetry; apply N.leb_gt; lia).
  replace (c =? 133)%N with false by (symmetry; apply N.eqb_neq; lia).
  replace (c =? 160)%N with false by (symmetry; apply N.eqb_neq; lia).
  replace (c =? 5760)%N with false by (symmetry; apply N.eqb_neq; lia).
  replace (c =? 8232)%N with false by (symmetry; apply N.eqb_neq; lia).
  replace (c =? 8233)%N with false by (symmetry; apply N.eqb_neq; lia).
  replace (c =? 8239)%N with false by (symmetry; apply N.eqb_neq; lia).
  replace (c =? 8287)%N with false by (symmetry; apply N.eqb_neq; lia).
  replace (c =? 12288)%N with false by (symmetry; apply N.eqb_neq; lia).
  now rewrite !andb_false_r.
Qed.

Lemma blank_has_text (s : str) : blank s = negb (has_text s).
Proof.
  unfold blank, has_text. destruct (strip s) as [|c t] eqn:E.
  - rewrite orb_true_r. apply strip_by_nil_all in E.
    clear -E. induction s as [|c s IH]; [reflexivity|].
    cbn [forallb existsb] in *. apply andb_true_iff in E as [Hc Hs].
    rewrite Hc. cbn [negb orb]. now apply IH.
  - destruct s as [|x s]; [discriminate|]. cbn [is_empty orb].
    destruct (existsb (fun c => negb (isspace c)) (x :: s)) eqn:X; [reflexivity|].
    assert (A : forallb isspace (x :: s) = true).
    { clear -X. induction (x :: s) as [|y l IH]; [reflexivity|].
      cbn [forallb existsb] in *. apply orb_false_iff in X as [Hy Hl].
      apply negb_false_iff in Hy. now rewrite Hy, IH. }
    apply (strip_by_all isspace) in A. unfold strip in E. congruence.
Qed.

Lemma has_cyrillic_has_text (s : str) :
  has_cyrillic s = true -> has_text s = true.
Proof.
  unfold has_cyrillic, has_text. induction s as [|c s IH]; [discriminate|].
  cbn [existsb]. intros H. apply orb_true_iff in H as [H | H].
  - now rewrite (is_cyrillic_not_space c H).
  - rewrite (IH H). apply orb_true_r.
Qed.

Lemma has_cyrillic_infix (x s : str) :
  infix x s -> has_cyrillic x = true -> has_cyrillic s = true.
Proof.
  intros (l & r & E) H. subst s. unfold has_cyrillic in *.
  now rewrite !existsb_app, H, orb_true_r.
Qed.

Lemma strip_infix (s : str) : infix (strip s) s.
Proof.
  destruct (strip_by_split isspace s) as (l & r & E & _). now exists l, r.
Qed.

Lemma strip_has_text (s : str) : strip s <> [] -> has_text (strip s) = true.
Proof.
  intros N. pose proof (strip_by_trimmed isspace s) as T. fold (strip s) in T.
  destruct (strip s) as [|c t]; [congruence|].
  apply trimmed_by_head in T. unfold has_text. simpl. now rewrite T.
Qed.

Ltac run_step := cbn -[strip error_note markdown voice_opus Nat.ltb Nat.sub].

Ltac run_calls :=
  unfold bind, try_except, send_chat_action, generate_speech, answer_voice,
    answer, sleep, call, call_value, ret, lift;
  run_step.

Ltac run_cases :=
  repeat (run_step;
          match goal with
          | |- context [send_chat_action_ok ?w ?h ?k] =>
              destruct (send_chat_action_ok w h k)
          | |- context [generate_speech_reply ?w ?h ?t] =>
              destruct (generate_speech_reply w h t) as [[|? ?]|]
          | |- context [answer_voice_ok ?w ?h ?a ?f] =>
              destruct (answer_voice_ok w h a f)
          | |- context [answer_ok ?w ?h ?t ?m] =>
              destruct (answer_ok w h t m)
          | |- context [?a <? ?b] => destruct (a <? b)
          end).

Section OrchestratorFacts.

Variable isalpha : char -> bool.

(** The second scan returns the first trimmed line that passes its test. *)
Lemma rescan_find (lines : list str) (english_text : str) :
  rescan isalpha lines english_text =
  match find (repair_line isalpha) (map strip lines) with
  | Some line => line
  | None => english_text
  end.
Proof.
  induction lines as [|line lines IH]; [reflexivity|].
  cbn [rescan map find]. unfold repair_line at 1.
  destruct (nonempty (strip line) && negb (has_cyrillic (strip line))
            && existsb isalpha (strip line)); cbn [andb]; [|exact IH].
  destruct (negb (contains sep (strip line))
            && negb (startswith lbracket (strip line))); [reflexivity | exact IH].
Qed.

Lemma find_first (A : Type) (f : A -> bool) (l1 : list A) (x : A) (l2 : list A) :
  Forall (fun y => f y = false) l1 -> f x = true ->
  find f (l1 ++ x :: l2) = Some x.
Proof.
  intros F T. induction F as [|y l1 Hy _ IH]; simpl.
  - now rewrite T.
  - now rewrite Hy.
Qed.

Lemma find_all_false (A : Type) (f : A -> bool) (l : list A) :
  Forall (fun y => f y = false) l -> find f l = None.
Proof.
  induction 1 as [|y l Hy _ IH]; simpl; [reflexivity | now rewrite Hy].
Qed.

Lemma repair_line_no_cyrillic (line : str) :
  repair_line isalpha line = true -> has_cyrillic line = false.
Proof.
  unfold repair_line. intros H.
  apply andb_true_iff in H as [H _]. apply andb_true_iff in H as [H _].
  apply andb_true_iff in H as [_ H]. now apply negb_true_iff in H.
Qed.

Lemma repair_empty_keeps (gigachat_response english_text : str) :
  has_text english_text = true ->
  repair_empty gigachat_response english_text = Ok english_text.
Proof.
  intros H. unfold repair_empty. now rewrite blank_has_text, H.
Qed.

Variable world : collaborators.

Lemma bind_events (A B : Type) (m : action A) (k : A -> action B)
    (history : list event) (e : event) :
  In e (snd (bind m k history)) ->
  In e (snd (m history)) \/
  exists a, fst (m history) = Ok a /\ In e (snd (k a (history ++ snd (m history)))).
Proof.
  unfold bind. destruct (m history) as [[a|x] made]; cbn [fst snd].
  - destruct (k a (history ++ made)) as [r made'] eqn:E. cbn [snd].
    intros H. apply in_app_or in H as [H | H]; [now left|].
    right. exists a. now rewrite E.
  - now left.
Qed.

Lemma try_except_events (A : Type) (m : action A) (handler : exn -> action A)
    (history : list event) (e : event) :
  In e (snd (try_except m handler history)) ->
  In e (snd (m history)) \/
  exists x, fst (m history) = Raise x /\
            In e (snd (handler x (history ++ snd (m history)))).
Proof.
  unfold try_except. destruct (m history) as [[a|x] made]; cbn [fst snd].
  - now left.
  - destruct (handler x (history ++ made)) as [r made'] eqn:E. cbn [snd].
    intros H. apply in_app_or in H as [H | H]; [now left|].
    right. exists x. now rewrite E.
Qed.

Lemma speech_attempts_events (max_retries : nat) (attempts : list nat)
    (english_text : str) (audio_sent : bool) (history : list event) (e : event) :
  In e (snd (speech_attempts world max_retries attempts english_text audio_sent history)) ->
  speech_event english_text e.
Proof.
  revert history. induction attempts as [|attempt attempts IH]; intros history.
  - intros [].
  - cbn [speech_attempts]. intros H.
    apply bind_events in H as [H | (control & _ & H)].
    + apply try_except_events in H as [H | (x & _ & H)].
      * apply bind_events in H as [H | (? & _ & H)].
        -- destruct H as [<- | []]. reflexivity.
        -- apply bind_events in H as [H | (audio_data & _ & H)].
           ++ destruct H as [<- | []]. reflexivity.
           ++ destruct audio_data as [|b audio_data]; [destruct H|].
              cbn [is_empty] in H.
              apply bind_events in H as [H | (? & _ & [])].
              destruct H as [<- | []]. now split.
      * destruct (attempt <? max_retries - 1).
        -- apply bind_events in H as [H | (? & _ & [])].
           destruct H as [<- | []]. reflexivity.
        -- apply bind_events in H as [H | (? & _ & [])].
           apply try_except_events in H as [H | (? & _ & [])].
           destruct H as [<- | []]. now split.
    + destruct control; [destruct H | exact (IH _ H)].
Qed.

Lemma deliver_speech_events (english_text : str) (history : list event) (e : event) :
  In e (snd (deliver_speech world english_text history)) ->
  has_text english_text = true /\ speech_event english_text e.
Proof.
  unfold deliver_speech.
  destruct (nonempty english_text && nonempty (strip english_text)) eqn:G;
    [|intros []].
  intros H. split.
  - rewrite <- (negb_involutive (has_text english_text)), <- blank_has_text.
    unfold blank, nonempty in *. apply andb_true_iff in G as [G1 G2].
    apply negb_true_iff in G1, G2. now rewrite G1, G2.
  - apply bind_events in H as [H | (? & _ & [])].
    exact (speech_attempts_events _ _ _ _ _ _ H).
Qed.

(** The calls of [process_message]: text messages, the typing signal, the
    completion request, and the calls of the speech delivery for the
    phrase obtained from the reply. *)
Lemma process_message_events (user_text : option str) (history : list event)
    (e : event) :
  In e (snd (process_message isalpha world user_text history)) ->
  (exists text, e = Answer text None) \/
  e = SendChatAction typing \/
  (exists message, e = SendMessage message) \/
  (exists message reply english_text,
     user_text = Some message /\
     send_message_reply world (history ++ [SendChatAction typing]) message
       = Some reply /\
     spoken_phrase isalpha reply = Ok english_text /\
     has_text english_text = true /\
     speech_event english_text e).
Proof.
  assert (A : forall text h, In e (snd (answer world text None h)) ->
              exists text, e = Answer text None).
  { intros text h [<- | []]. now exists text. }
  unfold process_message.
  destruct user_text as [message|]; [|intros H; left; exact (A _ _ H)].
  destruct (blank message); [intros H; left; exact (A _ _ H)|].
  intros H. apply try_except_events in H as [H | (x & _ & H)];
    [|left; exact (A _ _ H)].
  apply bind_events in H as [H | ([] & _ & H)].
  { destruct H as [<- | []]. now right; left. }
  apply bind_events in H as [H | (reply & R & H)].
  { destruct H as [<- | []]. right; right; left. now exists message. }
  cbn [send_chat_action call snd] in R, H.
  unfold send_message, call_value in R. cbn [fst] in R.
  destruct (send_message_reply world (history ++ [SendChatAction typing]) message)
    as [reply'|] eqn:Q; [|discriminate].
  inversion R; subst reply'. clear R.
  apply bind_events in H as [[] | ([p ex] & P & H)].
  apply bind_events in H as [[] | (p1 & P1 & H)].
  cbn [lift fst] in P, P1.
  apply bind_events in H as [H | (? & _ & H)]; [left; exact (A _ _ H)|].
  apply deliver_speech_events in H as [T S].
  right; right; right. exists message, reply, (repair_cyrillic isalpha reply p1).
  repeat split; try assumption.
  unfold spoken_phrase. rewrite P. cbn [bind_result]. now rewrite P1.
Qed.

End OrchestratorFacts.

(** * The properties of the orchestrator *)

Section OrchestratorProperties.

Variable isalpha : char -> bool.
Variable world : collaborators.

(** C3. When the phrase returned by the splitter has a Cyrillic character,
    it is kept by the check for an empty phrase, and the repair pass
    replaces it by the first line of the raw reply, trimmed, that has an
    alphabetic character, no Cyrillic character, no ['---'] in it and no
    ['['] in front; when no line is such, the phrase is left as it is. *)
Theorem repair_pass (gigachat_response english_text explanation : str) :
  parse_gigachat_response isalpha gigachat_response = Ok (english_text, explanation) ->
  has_cyrillic english_text = true ->
  repair_empty gigachat_response english_text = Ok english_text /\
  (forall l1 line l2,
     map strip (split nl None gigachat_response) = l1 ++ line :: l2 ->
     Forall (fun l => repair_line isalpha l = false) l1 ->
     repair_line isalpha line = true ->
     repair_cyrillic isalpha gigachat_response english_text = line) /\
  (Forall (fun l => repair_line isalpha l = false)
     (map strip (split nl None gigachat_response)) ->
   repair_cyrillic isalpha gigachat_response english_text = english_text).
Proof.
  intros _ H. split; [|split].
  - apply repair_empty_keeps. now apply has_cyrillic_has_text.
  - intros l1 line l2 E F T. unfold repair_cyrillic.
    now rewrite H, rescan_find, E, (find_first _ _ l1 line l2 F T).
  - intros F. unfold repair_cyrillic.
    now rewrite H, rescan_find, (find_all_false _ _ _ F).
Qed.

(** C4. For a phrase with text in it and a speech service that raises on
    every call, the delivery makes two attempts, waits one second between
    them and not after the second, sends no audio, sends the failure notice
    once, and ends normally whether or not sending the notice raised.  When
    the presence signal goes through, each attempt calls the speech service
    once: the calls are exactly the six listed. *)
Theorem deliver_speech_failing (english_text : str) (history : list event) :
  has_text english_text = true ->
  (forall h text, generate_speech_reply world h text = None) ->
  let first_attempt := attempt_calls world english_text history in
  let second_attempt :=
    attempt_calls world english_text (history ++ first_attempt ++ [Sleep 1]) in
  deliver_speech world english_text history =
  (Ok tt,
   first_attempt ++ [Sleep 1] ++ second_attempt ++
   [Answer error_note (Some markdown)]) /\
  ((forall h, send_chat_action_ok world h record_voice = true) ->
   deliver_speech world english_text history =
   (Ok tt,
    [SendChatAction record_voice; GenerateSpeech (strip english_text); Sleep 1;
     SendChatAction record_voice; GenerateSpeech (strip english_text);
     Answer error_note (Some markdown)])).
Proof.
  intros T F.
  assert (G : nonempty english_text && nonempty (strip english_text) = true).
  { pose proof (blank_has_text english_text) as B. rewrite T in B.
    unfold blank in B. apply orb_false_iff in B as [B1 B2].
    unfold nonempty. now rewrite B1, B2. }
  assert (E : deliver_speech world english_text history =
              (Ok tt,
               attempt_calls world english_text history ++ [Sleep 1] ++
               attempt_calls world english_text
                 (history ++ attempt_calls world english_text history ++ [Sleep 1]) ++
               [Answer error_note (Some markdown)])).
  { unfold deliver_speech. rewrite G. cbn [seq speech_attempts].
    unfold attempt_calls. run_calls. rewrite F.
    destruct (send_chat_action_ok world history record_voice);
      cbn -[strip error_note markdown]; rewrite ?F;
      match goal with
      | |- context [send_chat_action_ok world ?h record_voice] =>
          destruct (send_chat_action_ok world h record_voice)
      end;
      cbn -[strip error_note markdown]; rewrite ?F;
      cbn -[strip error_note markdown];
      match goal with
      | |- context [answer_ok world ?h error_note (Some markdown)] =>
          destruct (answer_ok world h error_note (Some markdown))
      end; reflexivity. }
  split; [exact E|].
  intros C. rewrite E. unfold attempt_calls. now rewrite !C.
Qed.

(** C5, as amended.  The text handed to the speech service always has a
    character that is not whitespace.  It has a Cyrillic character only
    when no line of the reply passes the test of the repair pass: the
    repair is an attempt, and a phrase it cannot replace is spoken as it
    is. *)
Theorem speech_input (user_text : option str) (history : list event) (text : str) :
  In (GenerateSpeech text) (snd (process_message isalpha world user_text history)) ->
  has_text text = true /\
  (has_cyrillic text = true ->
   exists message reply,
     user_text = Some message /\
     send_message_reply world (history ++ [SendChatAction typing]) message
       = Some reply /\
     Forall (fun line => repair_line isalpha line = false)
       (map strip (split nl None reply)) /\
     exists english_text explanation unrepaired,
       parse_gigachat_response isalpha reply = Ok (english_text, explanation) /\
       repair_empty reply english_text = Ok unrepaired /\
       text = strip unrepaired).
Proof.
  intros H. apply process_message_events in H
    as [(? & H) | [H | [(? & H) | (message & reply & t & -> & R & P & T & S)]]];
    try discriminate.
  cbn [speech_event] in S. subst text. split.
  - apply strip_has_text. pose proof (blank_has_text t) as B. rewrite T in B.
    unfold blank in B. apply orb_false_iff in B as [_ B]. now destruct (strip t).
  - intros C. exists message, reply. split; [reflexivity|]. split; [exact R|].
    apply (has_cyrillic_infix _ _ (strip_infix t)) in C.
    unfold spoken_phrase in P.
    destruct (parse_gigachat_response isalpha reply) as [[p ex]|]; [|discriminate].
    cbn [bind_result] in P.
    destruct (repair_empty reply p) as [p1|] eqn:E; [|discriminate].
    cbn [bind_result] in P. inversion P as [P']. clear P.
    unfold repair_cyrillic in P' |- *.
    destruct (has_cyrillic p1) eqn:C1; [|congruence].
    rewrite rescan_find in P' |- *.
    destruct (find (repair_line isalpha) (map strip (split nl None reply)))
      as [line|] eqn:Q.
    + apply find_some in Q as [_ Q]. apply repair_line_no_cyrillic in Q.
      congruence.
    + split.
      * apply Forall_forall. intros line L. exact (find_none _ _ Q line L).
      * exists p, ex, p1. split; [reflexivity|]. split; [exact E | reflexivity].
Qed.

(** C9. For a message without text, or with whitespace only, the one call
    made is the sending of the rejection text: the completion service is
    not called, and nothing else is signalled, spoken or sent. *)
Theorem blank_message_rejected (user_text : option str) (history : list event) :
  (forall message, user_text = Some message -> forallb isspace message = true) ->
  process_message isalpha world user_text history =
  (if answer_ok world history rejection None then Ok tt else Raise ServiceError,
   [Answer rejection None]).
Proof.
  intros H. unfold process_message. destruct user_text as [message|]; [|reflexivity].
  specialize (H message eq_refl).
  assert (B : blank message = true).
  { unfold blank, strip. rewrite (strip_by_all isspace message H).
    apply orb_true_r. }
  now rewrite B.
Qed.

End OrchestratorProperties.

Section EmptyAudio.

Variable isalpha : char -> bool.
Variable world : collaborators.

Lemma speech_attempts_empty_audio (max_retries : nat) (attempts : list nat)
    (english_text : str) (audio_sent : bool) (history : list event) :
  speech_attempts (empty_audio_raises world) max_retries attempts english_text
    audio_sent history =
  speech_attempts world max_retries attempts english_text audio_sent history.
Proof.
  revert history. induction attempts as [|attempt attempts IH]; intros history;
    [reflexivity|].
  cbn [speech_attempts]. run_calls. run_cases; run_step; now rewrite ?IH.
Qed.

Lemma deliver_speech_empty_audio (english_text : str) (history : list event) :
  deliver_speech (empty_audio_raises world) english_text history =
  deliver_speech world english_text history.
Proof.
  unfold deliver_speech.
  destruct (nonempty english_text && nonempty (strip english_text)); [|reflexivity].
  unfold bind. now rewrite speech_attempts_empty_audio.
Qed.

(** C6. A speech service that returns zero bytes is treated as one that
    raises: with every empty result replaced by a raised error, the speech
    delivery, and the whole handling of a message, makes the same calls
    and ends the same way; and no empty audio is ever sent. *)
Theorem empty_audio_is_failure :
  (forall english_text history,
     deliver_speech (empty_audio_raises world) english_text history =
     deliver_speech world english_text history) /\
  (forall user_text history,
     process_message isalpha (empty_audio_raises world) user_text history =
     process_message isalpha world user_text history) /\
  (forall user_text history filename,
     ~ In (AnswerVoice [] filename)
         (snd (process_message isalpha world user_text history))).
Proof.
  split; [exact deliver_speech_empty_audio | split].
  - intros user_text history. unfold process_message.
    destruct user_text as [message|]; [|reflexivity].
    destruct (blank message); [reflexivity|].
    run_calls.
    destruct (send_chat_action_ok world history typing); [|reflexivity].
    destruct (send_message_reply world (history ++ [SendChatAction typing]) message)
      as [reply|]; [|reflexivity].
    cbn -[strip error_note markdown voice_opus].
    destruct (parse_gigachat_response isalpha reply) as [[p ex]|]; [|reflexivity].
    destruct (repair_empty reply p) as [p1|]; [|reflexivity].
    cbn -[strip error_note markdown voice_opus].
    destruct (answer_ok world _ _ None); [|reflexivity].
    now rewrite deliver_speech_empty_audio.
  - intros user_text history filename H.
    apply process_message_events in H
      as [(? & H) | [H | [(? & H) | (? & ? & t & _ & _ & _ & _ & S)]]];
      try discriminate.
    cbn [speech_event] in S. now destruct S.
Qed.

End EmptyAudio.

(** * The examples of the specification, and the properties at work *)

Example split_hello :
  parse_gigachat_response isalpha_model hello_reply =
  Ok (hello_phrase, hello_explanation).
Proof. reflexivity. Qed.

Example split_fine :
  parse_gigachat_response isalpha_model fine_reply =
  Ok (fine_phrase, fine_explanation).
Proof. reflexivity. Qed.

Example split_privet :
  parse_gigachat_response isalpha_model privet_reply = Ok (privet_reply, []).
Proof. reflexivity. Qed.

(** A speech service that fails once and then works: one retry, one wait,
    one audio message. *)
Example deliver_speech_retry :
  deliver_speech (flaky_world hello_reply [Byte.x01]) hello_phrase [] =
  (Ok tt,
   [SendChatAction record_voice; GenerateSpeech hello_phrase; Sleep 1;
    SendChatAction record_voice; GenerateSpeech hello_phrase;
    AnswerVoice [Byte.x01] voice_opus]).
Proof. reflexivity. Qed.

Lemma parse_separator_once_witness :
  occurrences sep hello_reply = 1 /\
  hello_reply = hello_pre ++ sep ++ hello_post /\
  parse_gigachat_response isalpha_model hello_reply =
  Ok (hello_phrase, hello_explanation).
Proof.
  split; [reflexivity | split; [reflexivity|]].
  exact (parse_separator_once isalpha_model hello_reply hello_pre hello_post
           eq_refl eq_refl).
Defined.

Lemma parse_fallback_witness :
  contains sep indented_reply = false /\
  parse_gigachat_response isalpha_model indented_reply =
  Ok (indented_phrase, indented_explanation) /\
  contains sep fine_reply = false /\
  parse_gigachat_response isalpha_model fine_reply =
  Ok (fine_phrase, fine_explanation).
Proof.
  split; [reflexivity | split; [|split; [reflexivity|]]].
  - refine (proj1 (parse_fallback isalpha_model indented_reply eq_refl)
              [] indented_phrase _ eq_refl _ eq_refl).
    constructor.
  - refine (proj2 (parse_fallback isalpha_model fine_reply eq_refl) _).
    repeat constructor.
Defined.

Lemma explanation_structure_witness :
  (parse_gigachat_response isalpha_model hello_reply =
   Ok (hello_phrase, hello_explanation) /\
   trimmed_by isspace hello_explanation /\
   exists l r, hello_post = l ++ hello_explanation ++ r /\
               forallb isspace l = true /\ forallb isspace r = true) /\
  (parse_gigachat_response isalpha_model indented_reply =
   Ok (indented_phrase, indented_explanation) /\
   contains sep indented_reply = false /\
   ((trimmed_lines indented_reply = [] /\
     indented_phrase = [] /\ indented_explanation = []) \/
    exists l1 line l2,
      trimmed_lines indented_reply = l1 ++ line :: l2 /\
      Forall (fun l => english_line isalpha_model l = false) l1 /\
      (english_line isalpha_model line = true \/
       l1 = [] /\
       Forall (fun l => english_line isalpha_model l = false) (line :: l2)) /\
      indented_phrase = clean_phrase line /\
      indented_explanation = join nl l2)).
Proof.
  split.
  - split; [reflexivity|].
    exact (proj1 (explanation_structure isalpha_model hello_reply hello_phrase
                    hello_explanation eq_refl)
             hello_pre hello_post eq_refl eq_refl).
  - split; [reflexivity|]. split; [reflexivity|].
    exact (proj2 (explanation_structure isalpha_model indented_reply
                    indented_phrase indented_explanation eq_refl)
             eq_refl).
Defined.

(** C7 as it is stated fails: without a separator the blank lines and the
    indentation of the explanation are lost, so that the explanation is not
    a part of the reply any more. *)
Lemma explanation_structure_counterexample :
  parse_gigachat_response isalpha_model indented_reply =
  Ok (indented_phrase, indented_explanation) /\
  contains indented_explanation indented_reply = false.
Proof. split; reflexivity. Qed.

Lemma split_compose_idempotent_witness :
  parse_gigachat_response isalpha_model hello_reply =
  Ok (hello_phrase, hello_explanation) /\
  hello_phrase <> [] /\
  has_cyrillic hello_phrase = false /\
  strip_chars brackets hello_phrase = hello_phrase /\
  parse_gigachat_response isalpha_model (compose hello_phrase hello_explanation) =
  Ok (hello_phrase, hello_explanation).
Proof.
  assert (N : hello_phrase <> []) by discriminate.
  split; [reflexivity|]. split; [exact N|].
  split; [reflexivity|]. split; [reflexivity|].
  exact (split_compose_idempotent isalpha_model hello_reply hello_phrase
           hello_explanation eq_refl N eq_refl eq_refl).
Defined.

(** C8 as it is stated fails: a phrase that keeps a bracket at its end
    loses it when the composed reply is split again. *)
Lemma split_compose_counterexample :
  parse_gigachat_response isalpha_model bracket_reply =
  Ok (bracket_phrase, bracket_explanation) /\
  bracket_phrase <> [] /\
  has_cyrillic bracket_phrase = false /\
  parse_gigachat_response isalpha_model (compose bracket_phrase bracket_explanation) =
  Ok (bracket_phrase_again, bracket_explanation) /\
  bracket_phrase_again <> bracket_phrase.
Proof. repeat split; try reflexivity; discriminate. Qed.

Lemma parse_total_witness :
  forallb isspace blank_text = true /\
  parse_gigachat_response isalpha_model blank_text = Ok ([], []).
Proof.
  split; [reflexivity|].
  exact (proj2 (proj2 (parse_total isalpha_model)) blank_text eq_refl).
Defined.

Lemma repair_pass_witness :
  parse_gigachat_response isalpha_model repairable_reply =
  Ok (privet_word, hello_there) /\
  has_cyrillic privet_word = true /\
  repair_cyrillic isalpha_model repairable_reply privet_word = hello_there.
Proof.
  split; [reflexivity | split; [reflexivity|]].
  refine (proj1 (proj2 (repair_pass isalpha_model repairable_reply privet_word
                          hello_there eq_refl eq_refl))
            [privet_word; sep] hello_there [] eq_refl _ eq_refl).
  repeat constructor.
Defined.

Lemma deliver_speech_failing_witness :
  has_text hi = true /\
  deliver_speech (mute_world privet_reply) hi [] =
  (Ok tt,
   [SendChatAction record_voice; GenerateSpeech hi; Sleep 1;
    SendChatAction record_voice; GenerateSpeech hi;
    Answer error_note (Some markdown)]).
Proof.
  split; [reflexivity|].
  exact (proj2 (deliver_speech_failing (mute_world privet_reply) hi []
                  eq_refl (fun _ _ => eq_refl))
           (fun _ => eq_refl)).
Defined.

Lemma speech_input_witness : has_text hello_phrase = true.
Proof.
  refine (proj1 (speech_input isalpha_model
                   (working_world hello_reply [Byte.x01]) (Some hi) []
                   hello_phrase _)).
  vm_compute. do 4 right. left. reflexivity.
Defined.

(** C5 as it is stated fails: a reply in Cyrillic only is spoken as it is. *)
Lemma speech_input_counterexample :
  In (GenerateSpeech privet_reply)
     (snd (process_message isalpha_model (working_world privet_reply [Byte.x01])
             (Some hi) [])) /\
  has_cyrillic privet_reply = true.
Proof.
  split; [|reflexivity]. vm_compute. do 4 right. left. reflexivity.
Qed.

Lemma blank_message_rejected_witness :
  process_message isalpha_model (working_world hello_reply [Byte.x01])
    (Some blank_text) [] =
  (Ok tt, [Answer rejection None]).
Proof.
  refine (blank_message_rejected isalpha_model
            (working_world hello_reply [Byte.x01]) (Some blank_text) [] _).
  intros message E. inversion E. reflexivity.
Defined.

(** * Further properties of the speech delivery *)

Section DeliveryProperties.

Variable world : collaborators.

(** X1. The speech delivery never raises, whatever the collaborators do:
    it ends normally after at most two calls of the speech service, at most
    one wait and at most one text message (the failure notice). *)
Theorem deliver_speech_never_raises (english_text : str) (history : list event) :
  fst (deliver_speech world english_text history) = Ok tt /\
  length (filter is_generate_speech (snd (deliver_speech world english_text history))) <= 2 /\
  length (filter is_sleep (snd (deliver_speech world english_text history))) <= 1 /\
  length (filter is_answer (snd (deliver_speech world english_text history))) <= 1.
Proof.
  unfold deliver_speech.
  destruct (nonempty english_text && nonempty (strip english_text));
    [|cbn; repeat split; lia].
  cbn [seq speech_attempts]. run_calls. cbn [Nat.sub Nat.ltb Nat.leb].
  run_cases; cbn -[strip error_note markdown voice_opus]; repeat split; lia.
Qed.

(** X2. When the first attempt goes through (presence signal, non-empty
    audio, audio sent), the delivery is over after these three calls: no
    second synthesis, no wait, no notice. *)
Theorem deliver_speech_first_attempt (english_text : str) (history : list event)
    (audio_data : bytes) :
  has_text english_text = true ->
  send_chat_action_ok world history record_voice = true ->
  generate_speech_reply world (history ++ [SendChatAction record_voice])
    (strip english_text) = Some audio_data ->
  audio_data <> [] ->
  answer_voice_ok world
    (history ++ [SendChatAction record_voice; GenerateSpeech (strip english_text)])
    audio_data voice_opus = true ->
  deliver_speech world english_text history =
  (Ok tt,
   [SendChatAction record_voice; GenerateSpeech (strip english_text);
    AnswerVoice audio_data voice_opus]).
Proof.
  intros T C G N V. unfold deliver_speech.
  assert (B : nonempty english_text && nonempty (strip english_text) = true).
  { pose proof (blank_has_text english_text) as B. rewrite T in B.
    unfold blank in B. apply orb_false_iff in B as [B1 B2].
    unfold nonempty. now rewrite B1, B2. }
  rewrite B. cbn [seq speech_attempts]. run_calls.
  rewrite C. run_step. rewrite G.
  destruct audio_data as [|b audio_data]; [congruence|]. run_step.
  rewrite <- app_assoc. cbn [app].
  rewrite V. reflexivity.
Qed.



End DeliveryProperties.

(** * Further properties of the orchestrator *)

Lemma has_text_guard (s : str) :
  has_text s = true -> nonempty s && nonempty (strip s) = true.
Proof.
  intros T. pose proof (blank_has_text s) as B. rewrite T in B.
  unfold blank in B. apply orb_false_iff in B as [B1 B2].
  unfold nonempty. now rewrite B1, B2.
Qed.

Lemma contains_sep_has_text (s : str) : contains sep s = true -> has_text s = true.
Proof.
  intros H. destruct (contains_first s H) as (pre & post & E & _). subst s.
  unfold has_text. rewrite existsb_app. cbn. apply orb_true_r.
Qed.

(** [s.split('---')[0]] for a string cut at its first separator. *)
Lemma split_all_first (pre post : str) :
  contains sep (pre ++ [45; 45]%N) = false ->
  index (split sep None (pre ++ sep ++ post)) 0 = Ok pre.
Proof.
  unfold split. induction pre as [|c pre IH]; intros H.
  - cbn. now destruct (split_go sep None 2 (45%N :: 45%N :: post)).
  - apply not_contains_cons in H as [H1 H2].
    assert (E : startswith sep (c :: pre ++ sep ++ post) = false).
    { replace (c :: pre ++ sep ++ post)
        with ((c :: pre ++ [45; 45]%N) ++ [45]%N ++ post)
        by (simpl; now rewrite <- app_assoc).
      rewrite startswith_long; [exact H1 | simpl; rewrite length_app; simpl; lia]. }
    change (split_go sep None 0 ((c :: pre) ++ sep ++ post)) with
      (if may_split None && startswith sep (c :: pre ++ sep ++ post) then
         ([], let '(p, r) :=
                split_go sep (option_map pred None) (length sep - 1) (pre ++ sep ++ post)
              in p :: r)
       else let '(p, r) := split_go sep None 0 (pre ++ sep ++ post) in (c :: p, r)).
    rewrite E, andb_false_r. specialize (IH H2).
    destruct (split_go sep None 0 (pre ++ sep ++ post)) as [p r].
    cbn in IH |- *. now inversion IH.
Qed.

Section PhraseFacts.

Variable isalpha : char -> bool.

Lemma parse_returns (raw : str) :
  exists p e, parse_gigachat_response isalpha raw = Ok (p, e).
Proof.
  destruct (contains sep (strip raw)) eqn:C.
  - destruct (contains_first _ C) as (pre & post & E & F).
    rewrite <- parse_strip, E, (parse_sep_first isalpha pre post F). eauto.
  - destruct (first_match _ (english_line isalpha) (trimmed_lines (strip raw)))
      as [F | (l1 & x & l2 & P & F & Hx)].
    + rewrite (parse_fallback_default isalpha raw C F). eauto.
    + rewrite (parse_fallback_found isalpha raw l1 x l2 C P F Hx). eauto.
Qed.

Lemma repair_empty_returns (gigachat_response english_text : str) :
  exists p, repair_empty gigachat_response english_text = Ok p /\
            has_text p = true /\
            (has_text english_text = true -> p = english_text).
Proof.
  unfold repair_empty. rewrite blank_has_text.
  destruct (has_text english_text) eqn:T; cbn [negb]; [now exists english_text|].
  assert (S : forall x, exists p,
            Ok (if is_empty (strip x) then placeholder else strip x) = Ok p /\
            has_text p = true /\ (false = true -> p = english_text)).
  { intros x. destruct (strip x) as [|c t] eqn:E; cbn [is_empty].
    - exists placeholder. now repeat split.
    - exists (c :: t). repeat split; [|discriminate].
      rewrite <- E. apply strip_has_text. now rewrite E. }
  destruct (contains sep gigachat_response) eqn:C.
  - unfold split. destruct (split_go sep None 0 gigachat_response) as [p r].
    cbn [index nth_error bind_result]. apply S.
  - cbn [bind_result]. apply S.
Qed.

Lemma repair_cyrillic_has_text (gigachat_response english_text : str) :
  has_text english_text = true ->
  has_text (repair_cyrillic isalpha gigachat_response english_text) = true.
Proof.
  intros T. unfold repair_cyrillic.
  destruct (has_cyrillic english_text); [|exact T].
  rewrite rescan_find.
  destruct (find (repair_line isalpha) (map strip (split nl None gigachat_response)))
    as [line|] eqn:Q; [|exact T].
  apply find_some in Q as [I Q]. apply in_map_iff in I as (x & <- & _).
  apply strip_has_text. unfold repair_line in Q. now destruct (strip x).
Qed.

Lemma spoken_phrase_returns (gigachat_response : str) :
  exists p, spoken_phrase isalpha gigachat_response = Ok p /\ has_text p = true.
Proof.
  unfold spoken_phrase.
  destruct (parse_returns gigachat_response) as (p0 & e & P). rewrite P.
  cbn [bind_result].
  destruct (repair_empty_returns gigachat_response p0) as (p1 & R & T & _).
  rewrite R. cbn [bind_result].
  exists (repair_cyrillic isalpha gigachat_response p1). split; [reflexivity|].
  now apply repair_cyrillic_has_text.
Qed.

Variable world : collaborators.

Lemma deliver_speech_starts (english_text : str) (history : list event) :
  has_text english_text = true ->
  exists rest,
    deliver_speech world english_text history =
    (Ok tt, SendChatAction record_voice :: rest).
Proof.
  intros T. unfold deliver_speech. rewrite (has_text_guard _ T).
  cbn [seq speech_attempts]. run_calls. cbn [Nat.sub Nat.ltb Nat.leb].
  run_cases; cbn -[strip error_note markdown voice_opus]; eauto.
Qed.

End PhraseFacts.

Section ProcessProperties.

Variable isalpha : char -> bool.
Variable world : collaborators.

(** X5. Handling a message raises only when sending the rejection or the
    apology raises: with a channel on which these two texts go through,
    [process_message] ends normally whatever else fails. *)
Theorem process_message_never_raises (user_text : option str) (history : list event) :
  (forall h, answer_ok world h rejection None = true) ->
  (forall h, answer_ok world h error_message None = true) ->
  fst (process_message isalpha world user_text history) = Ok tt.
Proof.
  intros R A. unfold process_message.
  assert (J : fst (answer world rejection None history) = Ok tt)
    by (unfold answer, call; now rewrite R).
  destruct user_text as [message|]; [|exact J].
  destruct (blank message); [exact J|].
  unfold try_except.
  match goal with |- context [match ?m history with _ => _ end] =>
    destruct (m history) as [[[]|x] made] end; [reflexivity|].
  unfold answer, call. now rewrite A.
Qed.

(** X6. When the completion service raises, the request is not repeated and
    nothing is spoken: after the typing signal and the one request, the
    apology is sent. *)
Theorem completion_failure (message : str) (history : list event) :
  has_text message = true ->
  send_chat_action_ok world history typing = true ->
  send_message_reply world (history ++ [SendChatAction typing]) message = None ->
  process_message isalpha world (Some message) history =
  (if answer_ok world (history ++ [SendChatAction typing; SendMessage message])
        error_message None
   then Ok tt else Raise ServiceError,
   [SendChatAction typing; SendMessage message; Answer error_message None]).
Proof.
  intros T C S. unfold process_message.
  rewrite blank_has_text, T. cbn [negb]. run_calls.
  rewrite C, S. run_step. reflexivity.
Qed.

(** X7. When the text reply cannot be sent, nothing is spoken: the apology
    is the next and last call. *)
Theorem text_reply_failure (message gigachat_response p0 p e : str)
    (history : list event) :
  has_text message = true ->
  send_chat_action_ok world history typing = true ->
  send_message_reply world (history ++ [SendChatAction typing]) message
    = Some gigachat_response ->
  parse_gigachat_response isalpha gigachat_response = Ok (p0, e) ->
  spoken_phrase isalpha gigachat_response = Ok p ->
  answer_ok world (history ++ [SendChatAction typing; SendMessage message])
    (compose p e) None = false ->
  snd (process_message isalpha world (Some message) history) =
  [SendChatAction typing; SendMessage message; Answer (compose p e) None;
   Answer error_message None].
Proof.
  intros T C S P Q A. unfold process_message.
  rewrite blank_has_text, T. cbn [negb].
  unfold spoken_phrase in Q. rewrite P in Q. cbn [bind_result] in Q.
  destruct (repair_empty gigachat_response p0) as [p1|] eqn:R; [|discriminate].
  cbn [bind_result] in Q. inversion Q as [Q']. clear Q.
  run_calls. rewrite C, S. run_step. rewrite P, R. run_step.
  rewrite <- ?app_assoc; cbn [app]. rewrite Q', A. reflexivity.
Qed.

(** X8. Splitting and repairing never raise, and the phrase they give
    always has text: for every reply of the completion service there is a
    phrase to compose the text reply from and to speak. *)
Theorem spoken_phrase_total (gigachat_response : str) :
  exists p, spoken_phrase isalpha gigachat_response = Ok p /\ has_text p = true.
Proof.
  unfold spoken_phrase.
  destruct (parse_returns isalpha gigachat_response) as (p0 & e & P).
  destruct (repair_empty_returns gigachat_response p0) as (p1 & R & T & _).
  exists (repair_cyrillic isalpha gigachat_response p1).
  rewrite P. cbn [bind_result]. rewrite R. cbn [bind_result].
  split; [reflexivity | now apply repair_cyrillic_has_text].
Qed.

(** X9. Once the text reply has been sent, the speech delivery always
    starts: the text reply is the third call, after the typing signal and
    the completion request, and the recording signal is the fourth; the
    handling then ends normally. *)
Theorem text_then_speech (message gigachat_response p0 p e : str)
    (history : list event) :
  has_text message = true ->
  send_chat_action_ok world history typing = true ->
  send_message_reply world (history ++ [SendChatAction typing]) message
    = Some gigachat_response ->
  parse_gigachat_response isalpha gigachat_response = Ok (p0, e) ->
  spoken_phrase isalpha gigachat_response = Ok p ->
  answer_ok world (history ++ [SendChatAction typing; SendMessage message])
    (compose p e) None = true ->
  exists rest,
    process_message isalpha world (Some message) history =
    (Ok tt,
     [SendChatAction typing; SendMessage message; Answer (compose p e) None;
      SendChatAction record_voice] ++ rest).
Proof.
  intros T C S P Q A. unfold process_message.
  rewrite blank_has_text, T. cbn [negb].
  destruct (spoken_phrase_returns isalpha gigachat_response) as (p' & Q2 & T2).
  rewrite Q in Q2. inversion Q2. subst p'. clear Q2.
  unfold spoken_phrase in Q. rewrite P in Q. cbn [bind_result] in Q.
  destruct (repair_empty gigachat_response p0) as [p1|] eqn:R; [|discriminate].
  cbn [bind_result] in Q. inversion Q as [Q']. clear Q.
  run_calls. rewrite C, S. run_step. rewrite P, R. run_step.
  rewrite <- ?app_assoc; cbn [app]. rewrite Q', A.
  destruct (deliver_speech_starts world p
              (history ++ [SendChatAction typing; SendMessage message;
                           Answer (compose p e) None]) T2) as [rest D].
  run_step. rewrite <- ?app_assoc; cbn [app]. rewrite D.
  exists rest. reflexivity.
Qed.

End ProcessProperties.

(** * Further properties of the splitter and of the repair *)

Section PhraseProperties.

Variable isalpha : char -> bool.

(** X10. A reply without text, or without text before its first separator,
    gets the placeholder as its phrase. *)
Theorem placeholder_phrase :
  (forall gigachat_response,
     has_text gigachat_response = false ->
     spoken_phrase isalpha gigachat_response = Ok placeholder) /\
  (forall pre post : str,
     contains sep (pre ++ [45; 45]%N) = false ->
     has_text pre = false ->
     spoken_phrase isalpha (pre ++ sep ++ post) = Ok placeholder).
Proof.
  assert (B : forall s, has_text s = false -> strip s = []).
  { intros s H. pose proof (blank_has_text s) as E. rewrite H in E.
    unfold blank in E. cbn [negb] in E.
    destruct s as [|c s]; [reflexivity|]. cbn [is_empty orb] in E.
    now destruct (strip (c :: s)). }
  split.
  - intros reply H. unfold spoken_phrase.
    assert (C : contains sep reply = false).
    { destruct (contains sep reply) eqn:C; [|reflexivity].
      apply contains_sep_has_text in C. congruence. }
    assert (P : parse_gigachat_response isalpha reply = Ok ([], [])).
    { unfold parse_gigachat_response. rewrite (B reply H). reflexivity. }
    rewrite P. cbn [bind_result]. unfold repair_empty.
    change (blank []) with true. cbv iota. rewrite C, (B reply H). reflexivity.
  - intros pre post F H. unfold spoken_phrase.
    rewrite (parse_sep_first isalpha pre post F), (B pre H).
    cbn [bind_result]. change (clean_phrase []) with (@nil char).
    unfold repair_empty. change (blank []) with true. cbv iota.
    rewrite contains_intro, (split_all_first pre post F).
    cbn [bind_result]. rewrite (B pre H). reflexivity.
Qed.

(** X11. The phrase returned by the splitter is in a normal form: it has no
    whitespace at its ends, no newline, no run of whitespace other than one
    space (collapsing it again changes nothing), and the separator does not
    occur in it; the explanation has no whitespace at its ends. *)
Theorem parse_normal_form (raw p e : str) :
  parse_gigachat_response isalpha raw = Ok (p, e) ->
  trimmed_by isspace p /\
  contains nl p = false /\
  join space (split_ws p) = p /\
  contains sep p = false /\
  trimmed_by isspace e.
Proof.
  intros H. destruct (parse_shape isalpha raw p e H) as [(x & -> & Hx) He].
  destruct (clean_phrase_spec x Hx) as (S & T & N & J).
  exact (conj T (conj N (conj J (conj S He)))).
Qed.

(** X12. Only the first separator splits the reply: whatever comes after
    it, further separators included, is the explanation, trimmed. *)
Theorem parse_first_separator_only (pre post : str) :
  contains sep (pre ++ [45; 45]%N) = false ->
  parse_gigachat_response isalpha (pre ++ sep ++ post) =
  Ok (clean_phrase (strip pre), strip post) /\
  (contains sep post = true -> contains sep (strip post) = true).
Proof.
  intros F. split; [exact (parse_sep_first isalpha pre post F)|].
  intros C. destruct (contains_first post C) as (a & b & -> & _).
  rewrite strip_around_sep. apply contains_intro.
Qed.

(** X13. The splitter does not see whitespace around the reply. *)
Theorem parse_ignores_outer_space (l raw r : str) :
  forallb isspace l = true -> forallb isspace r = true ->
  parse_gigachat_response isalpha (l ++ raw ++ r) =
  parse_gigachat_response isalpha raw.
Proof.
  intros L R. rewrite <- (parse_strip isalpha (l ++ raw ++ r)),
    <- (parse_strip isalpha raw).
  unfold strip.
  now rewrite (strip_by_drop_l isspace l _ L), (strip_by_drop_r isspace raw r R).
Qed.

End PhraseProperties.

Section ReplyProperties.

Variable isalpha : char -> bool.

Lemma first_piece_no_sep (s : str) :
  contains sep s = true ->
  exists piece, index (split sep None s) 0 = Ok piece /\ contains sep piece = false.
Proof.
  intros C. destruct (contains_first s C) as (pre & post & -> & F).
  exists pre. split; [exact (split_all_first pre post F)|].
  now apply not_contains_app in F.
Qed.

Lemma repair_empty_shape (gigachat_response english_text p : str) :
  trimmed_by isspace english_text ->
  contains sep english_text = false ->
  repair_empty gigachat_response english_text = Ok p ->
  trimmed_by isspace p /\ contains sep p = false.
Proof.
  intros T S. unfold repair_empty.
  destruct (blank english_text); [|intros E; inversion E; subst; now split].
  assert (K : forall x, contains sep x = false ->
              Ok (if is_empty (strip x) then placeholder else strip x) = Ok p ->
              trimmed_by isspace p /\ contains sep p = false).
  { intros x Hx E. inversion E as [E']. clear E.
    destruct (strip x) as [|c t] eqn:X; cbn [is_empty].
    - now repeat split.
    - rewrite <- X. split; [apply strip_by_trimmed|].
      now apply not_contains_strip_by. }
  destruct (contains sep gigachat_response) eqn:C.
  - destruct (first_piece_no_sep gigachat_response C) as (piece & I & N).
    rewrite I. cbn [bind_result]. now apply K.
  - cbn [bind_result]. now apply K.
Qed.

Lemma spoken_phrase_shape (gigachat_response p : str) :
  spoken_phrase isalpha gigachat_response = Ok p ->
  trimmed_by isspace p /\ contains sep p = false.
Proof.
  unfold spoken_phrase. intros H.
  destruct (parse_gigachat_response isalpha gigachat_response) as [[p0 e]|] eqn:P;
    [|discriminate].
  cbn [bind_result] in H.
  destruct (parse_shape isalpha _ _ _ P) as [(x & -> & Hx) _].
  destruct (clean_phrase_spec x Hx) as (S & T & _).
  destruct (repair_empty gigachat_response (clean_phrase x)) as [p1|] eqn:R;
    [|discriminate].
  cbn [bind_result] in H. inversion H as [H']. clear H.
  destruct (repair_empty_shape _ _ _ T S R) as [T1 S1].
  unfold repair_cyrillic. destruct (has_cyrillic p1); [|now split].
  rewrite rescan_find.
  destruct (find (repair_line isalpha) (map strip (split nl None gigachat_response)))
    as [line|] eqn:Q; [|now split].
  apply find_some in Q as [I Q]. apply in_map_iff in I as (y & <- & _). split.
  - apply strip_by_trimmed.
  - unfold repair_line in Q. apply andb_true_iff in Q as [_ Q].
    apply andb_true_iff in Q as [Q _]. now apply negb_true_iff in Q.
Qed.

(** X14. The phrase of the text reply, repaired or not, has no whitespace
    at its ends and never contains the separator, so that the rule put into
    the text reply is its first separator: splitting the text reply of a
    reply with an explanation gives the same explanation back, with the
    phrase cleaned. *)
Theorem text_reply_splits_back (gigachat_response p0 p e : str) :
  parse_gigachat_response isalpha gigachat_response = Ok (p0, e) ->
  spoken_phrase isalpha gigachat_response = Ok p ->
  e <> [] ->
  contains sep p = false /\
  parse_gigachat_response isalpha (compose p e) = Ok (clean_phrase p, e).
Proof.
  intros P Q N. destruct (spoken_phrase_shape _ _ Q) as [T S].
  destruct (parse_shape isalpha _ _ _ P) as [_ Te].
  split; [exact S|]. unfold compose.
  destruct e as [|c e]; [congruence|]. cbn [nonempty is_empty negb].
  replace (p ++ reply_rule ++ c :: e)
    with ((p ++ [10; 10]%N) ++ sep ++ ([10; 10]%N ++ c :: e))
    by (now rewrite <- app_assoc).
  rewrite parse_sep_first.
  - unfold strip.
    rewrite (strip_by_drop_r isspace p [10; 10]%N) by reflexivity.
    rewrite strip_by_drop_l by reflexivity.
    now rewrite (trimmed_by_strip isspace p T), (trimmed_by_strip isspace _ Te).
  - rewrite <- app_assoc.
    change ([10; 10]%N ++ [45; 45]%N) with (10%N :: [10; 45; 45]%N).
    rewrite contains_sep_across by reflexivity. now rewrite S.
Qed.

End ReplyProperties.

(** * The configuration check *)

(** X15. [check_config] returns, and prints nothing, exactly when the three
    variables are set to non-empty values. *)
Theorem check_config_returns (BOT_TOKEN GIGACHAT_AUTH OPENAI_API_KEY : option str) :
  Config.check_config BOT_TOKEN GIGACHAT_AUTH OPENAI_API_KEY = (Config.Returns, []) <->
  Config.unset BOT_TOKEN = false /\ Config.unset GIGACHAT_AUTH = false /\
  Config.unset OPENAI_API_KEY = false.
Proof.
  unfold Config.check_config.
  destruct (Config.unset BOT_TOKEN), (Config.unset GIGACHAT_AUTH),
    (Config.unset OPENAI_API_KEY); cbn [app nonempty is_empty negb];
    split; try discriminate; try (intros (? & ? & ?); discriminate); auto.
Qed.

(** X16. When a variable is missing, [check_config] ends the process with
    status 1, and the fourth text it prints names the missing variables, all
    of them and no other, in the order BOT_TOKEN, GIGACHAT_AUTH,
    OPENAI_API_KEY, separated by a comma and a space. *)
Theorem check_config_exits (BOT_TOKEN GIGACHAT_AUTH OPENAI_API_KEY : option str) :
  Config.missing BOT_TOKEN GIGACHAT_AUTH OPENAI_API_KEY <> [] ->
  Config.check_config BOT_TOKEN GIGACHAT_AUTH OPENAI_API_KEY =
  (Config.SystemExit 1,
   [Config.rule_line; Config.report_title; Config.rule_line;
    Config.not_found ++
    join Config.comma (Config.missing BOT_TOKEN GIGACHAT_AUTH OPENAI_API_KEY)]
   ++ Config.advice ++ [Config.rule_line]).
Proof.
  unfold Config.check_config, Config.missing. cbn [filter snd].
  destruct (Config.unset BOT_TOKEN), (Config.unset GIGACHAT_AUTH),
    (Config.unset OPENAI_API_KEY); cbn [map fst app nonempty is_empty negb];
    intros N; try reflexivity. congruence.
Qed.

Lemma check_config_returns_witness :
  Config.check_config (Some hi) (Some hi) (Some hi) = (Config.Returns, []).
Proof.
  apply (check_config_returns (Some hi) (Some hi) (Some hi)).
  repeat split.
Defined.

Lemma check_config_exits_witness :
  fst (Config.check_config None (Some hi) (Some [])) = Config.SystemExit 1 /\
  nth 3 (snd (Config.check_config None (Some hi) (Some []))) [] =
  Config.not_found ++ Config.name_bot_token ++ Config.comma ++
  Config.name_openai_api_key.
Proof.
  rewrite (check_config_exits None (Some hi) (Some [])); [|discriminate].
  split; reflexivity.
Defined.

(** * The completion client *)

Ltac run_method :=
  unfold GigaChatClient.get_access_token, GigaChatClient.send_message,
    GigaChatClient.bind, GigaChatClient.get_self, GigaChatClient.ret,
    GigaChatClient.raise, GigaChatClient.lift, GigaChatClient.read_clock,
    GigaChatClient.draw_uuid, GigaChatClient.request_token,
    GigaChatClient.request_completion, GigaChatClient.set_access_token,
    GigaChatClient.set_token_expires_at;
  cbn [fst snd app GigaChatClient.access_token GigaChatClient.auth_key
       GigaChatClient.token_expires_at negb];
  rewrite ?app_nil_r.

Section ClientFacts.

Import GigaChatClient.

Variable py : arithmetic.
Variable net : network py.

Lemma get_access_token_cached (self : client py) (history : list (call py)) :
  truthy (access_token self) = true ->
  ltb py (time_time net history) (token_expires_at self) = true ->
  get_access_token net self history =
  (Returned (access_token self), self, [TimeRead py]).
Proof.
  intros T V. run_method. rewrite T. run_method. now rewrite V.
Qed.

(** The request for a token, once the test of the held token has failed. *)
Lemma get_access_token_stale (self : client py) (history : list (call py)) :
  token_stale net self history = true ->
  get_access_token net self history =
  match token_response net self history with
  | Raised e => (Raised e, self, token_request_calls net self history)
  | Returned result =>
      match py_get result key_access_token (JNull py) with
      | Raised e => (Raised e, self, token_request_calls net self history)
      | Returned token =>
          let held :=
            {| auth_key := auth_key self; access_token := token;
               token_expires_at := token_expires_at self |} in
          if negb (truthy token) then
            (Raised ValueError, held, token_request_calls net self history)
          else
            match py_get result key_expires_in (JNum py (of_nat py 1800)) with
            | Raised e => (Raised e, held, token_request_calls net self history)
            | Returned expires_in =>
                match py_add
                        (time_time net (history ++ token_request_calls net self history))
                        expires_in with
                | Raised e =>
                    (Raised e, held,
                     token_request_calls net self history ++ [TimeRead py])
                | Returned later =>
                    (Returned token,
                     {| auth_key := auth_key self; access_token := token;
                        token_expires_at := sub py later (of_nat py 60) |},
                     token_request_calls net self history ++ [TimeRead py])
                end
            end
      end
  end.
Proof.
  unfold token_stale, token_response, token_request_calls, token_check_calls.
  intros S. run_method.
  destruct (truthy (access_token self)) eqn:T; run_method.
  - cbn [andb negb] in S. apply negb_true_iff in S. rewrite S. run_method.
    rewrite <- ?app_assoc. cbn [app].
    destruct (post_oauth net _ _ _) as [result|e]; [|reflexivity].
    destruct (py_get result key_access_token (JNull py)) as [token|e];
      [|reflexivity].
    run_method. destruct (truthy token); run_method; [|reflexivity].
    destruct (py_get result key_expires_in _) as [expires_in|e]; [|reflexivity].
    run_method. rewrite <- ?app_assoc. cbn [app].
    now destruct (py_add _ expires_in).
  - destruct (post_oauth net _ _ _) as [result|e]; [|reflexivity].
    destruct (py_get result key_access_token (JNull py)) as [token|e];
      [|reflexivity].
    run_method. destruct (truthy token); run_method; [|reflexivity].
    destruct (py_get result key_expires_in _) as [expires_in|e]; [|reflexivity].
    run_method. rewrite <- ?app_assoc. cbn [app].
    now destruct (py_add _ expires_in).
Qed.

(** The calls of [get_access_token]: at most one request, for a token. *)
Lemma get_access_token_calls (self : client py) (history : list (call py)) :
  length (filter (@is_request py) (snd (get_access_token net self history))) <= 1 /\
  forall token message,
    ~ In (ChatPost py token message) (snd (get_access_token net self history)).
Proof.
  assert (K : forall extra,
            (extra = [] \/ extra = [TimeRead py]) ->
            length (filter (@is_request py)
                      (token_request_calls net self history ++ extra)) <= 1 /\
            forall token message,
              ~ In (ChatPost py token message)
                  (token_request_calls net self history ++ extra)).
  { intros extra E. unfold token_request_calls, token_check_calls.
    destruct (truthy (access_token self)); destruct E as [-> | ->];
      cbn; (split; [lia|]); intros token message H;
      repeat (destruct H as [H | H]; [discriminate|]); exact H. }
  destruct (token_stale net self history) eqn:S.
  - rewrite (get_access_token_stale self history S).
    pose proof (K [] (or_introl eq_refl)) as K0. rewrite app_nil_r in K0.
    pose proof (K [TimeRead py] (or_intror eq_refl)) as K1.
    destruct (token_response net self history) as [result|e]; [|exact K0].
    destruct (py_get result key_access_token (JNull py)) as [token|e]; [|exact K0].
    cbv zeta. destruct (negb (truthy token)); [exact K0|].
    destruct (py_get result key_expires_in _) as [expires_in|e]; [|exact K0].
    destruct (py_add _ expires_in); exact K1.
  - unfold token_stale in S. apply negb_false_iff, andb_true_iff in S as [T V].
    rewrite (get_access_token_cached self history T V). cbn. split; [lia|].
    intros token message [H | []]. discriminate.
Qed.

Lemma get_access_token_returned (self self' : client py) (history made : list (call py))
    (token : json py) :
  get_access_token net self history = (Returned token, self', made) ->
  truthy token = true /\ access_token self' = token /\
  auth_key self' = auth_key self.
Proof.
  destruct (token_stale net self history) eqn:S.
  - rewrite (get_access_token_stale self history S).
    destruct (token_response net self history) as [result|e]; [|discriminate].
    destruct (py_get result key_access_token (JNull py)) as [t|e]; [|discriminate].
    cbv zeta. destruct (truthy t) eqn:T; cbn [negb]; [|discriminate].
    destruct (py_get result key_expires_in _) as [expires_in|e]; [|discriminate].
    destruct (py_add _ expires_in); [|discriminate].
    intros H. inversion H; subst. now repeat split.
  - unfold token_stale in S. apply negb_false_iff, andb_true_iff in S as [T V].
    rewrite (get_access_token_cached self history T V).
    intros H. inversion H; subst. now repeat split.
Qed.

End ClientFacts.

Section ClientProperties.

Import GigaChatClient.

Variable py : arithmetic.
Variable net : network py.

(** X17. While the client holds a token and the clock is before its expiry,
    [get_access_token] returns that token after reading the clock, makes no
    request, and leaves the client as it is. *)
Theorem cached_token (self : client py) (history : list (call py)) :
  truthy (access_token self) = true ->
  ltb py (time_time net history) (token_expires_at self) = true ->
  get_access_token net self history =
  (Returned (access_token self), self, [TimeRead py]).
Proof.
  intros T V. run_method. rewrite T. run_method. now rewrite V.
Qed.

(** X18. A token returned by [get_access_token] is never empty (it is true
    as a condition), and it is the token that the client holds afterwards. *)
Theorem returned_token_is_held (self self' : client py)
    (history made : list (call py)) (token : json py) :
  get_access_token net self history = (Returned token, self', made) ->
  truthy token = true /\ access_token self' = token.
Proof.
  intros H. destruct (get_access_token_returned py net self self' history made token H)
    as (T & A & _). now split.
Qed.

(** X19. [get_access_token] makes at most one request, and it is never a
    completion request. *)
Theorem one_token_request (self : client py) (history : list (call py)) :
  length (filter (@is_request py) (snd (get_access_token net self history))) <= 1 /\
  forall token message,
    ~ In (ChatPost py token message) (snd (get_access_token net self history)).
Proof.
  destruct (token_stale net self history) eqn:S.
  - destruct (get_access_token_calls py net self history) as [L C]. now split.
  - unfold token_stale in S. apply negb_false_iff, andb_true_iff in S as [T V].
    rewrite (get_access_token_cached py net self history T V). cbn. split; [lia|].
    intros token message [H | []]. discriminate.
Qed.

(** X20. A token that [get_access_token] has returned is returned again,
    without a request, by every later call made before the expiry that the
    client then holds. *)
Theorem token_reused (self self' : client py) (history made history' : list (call py))
    (token : json py) :
  get_access_token net self history = (Returned token, self', made) ->
  ltb py (time_time net history') (token_expires_at self') = true ->
  get_access_token net self' history' = (Returned token, self', [TimeRead py]).
Proof.
  intros H V. destruct (get_access_token_returned py net self self' history made token H)
    as (T & A & _).
  rewrite <- A in T. rewrite (get_access_token_cached py net self' history' T V).
  now rewrite A.
Qed.

(** X21. When the held token is missing or past its expiry and the response
    to the request has a token and a number of seconds, the client holds
    the new token after the call, and the clock is read once more.  When a
    float can be made of the number of seconds, the token is returned and
    held until sixty seconds before that delay has passed, counted from
    that reading of the clock; without [expires_in] in the response the
    delay is 1800 seconds.  When the number is beyond the floats, the call
    raises [OverflowError], and the expiry that the client holds is the old
    one. *)
Theorem token_refreshed (self : client py) (history : list (call py))
    (fields : list (str * json py)) (token : json py) (seconds : number py) :
  token_stale net self history = true ->
  token_response net self history = Returned (JObj py fields) ->
  lookup key_access_token fields = Some token ->
  truthy token = true ->
  match lookup key_expires_in fields with
  | Some value => value
  | None => JNum py (of_nat py 1800)
  end = JNum py seconds ->
  get_access_token net self history =
  (match as_float py seconds with
   | Some _ => Returned token
   | None => Raised OverflowError
   end,
   {| auth_key := auth_key self;
      access_token := token;
      token_expires_at :=
        match as_float py seconds with
        | Some delay =>
            sub py
              (add py (time_time net (history ++ token_request_calls net self history))
                 delay)
              (of_nat py 60)
        | None => token_expires_at self
        end |},
   token_request_calls net self history ++ [TimeRead py]).
Proof.
  intros S R K T E. rewrite (get_access_token_stale py net self history S), R.
  cbn [py_get]. rewrite K. cbv zeta. rewrite T. cbn [negb]. rewrite E.
  cbn [py_add]. now destruct (as_float py seconds).
Qed.

(** X22. When the request for a token raises, the exception goes to the
    caller and the client is left as it was. *)
Theorem token_request_fails (self : client py) (history : list (call py)) (e : error) :
  token_stale net self history = true ->
  token_response net self history = Raised e ->
  get_access_token net self history =
  (Raised e, self, token_request_calls net self history).
Proof.
  intros S R. now rewrite (get_access_token_stale py net self history S), R.
Qed.

(** X23. When the response to the request has no token, or an empty one,
    [get_access_token] raises [ValueError]; the client then holds no token
    any more, its expiry is unchanged, and every later call makes a new
    request. *)
Theorem token_missing (self : client py) (history : list (call py))
    (fields : list (str * json py)) :
  token_stale net self history = true ->
  token_response net self history = Returned (JObj py fields) ->
  truthy (match lookup key_access_token fields with
          | Some value => value
          | None => JNull py
          end) = false ->
  exists self',
    get_access_token net self history =
    (Raised ValueError, self', token_request_calls net self history) /\
    truthy (access_token self') = false /\
    token_expires_at self' = token_expires_at self /\
    forall history', token_stale net self' history' = true.
Proof.
  intros S R T. rewrite (get_access_token_stale py net self history S), R.
  cbn [py_get]. cbv zeta. rewrite T. cbn [negb].
  eexists. split; [reflexivity|]. cbn [access_token token_expires_at].
  repeat split; [exact T|]. intros history'. unfold token_stale.
  cbn [access_token]. now rewrite T.
Qed.

(** X24. When no token can be had, [send_message] makes no completion
    request: it ends as [get_access_token] did. *)
Theorem no_completion_without_token (message : str) (self self' : client py)
    (history made : list (call py)) (e : error) :
  get_access_token net self history = (Raised e, self', made) ->
  send_message net message self history = (Raised e, self', made).
Proof.
  intros H. unfold send_message, bind. now rewrite H.
Qed.

(** X25. [send_message] makes at most one completion request; it is for
    the message it was given and carries a token that is not empty. *)
Theorem completion_request_has_token (message : str) (self : client py)
    (history : list (call py)) :
  length (filter (fun c => match c with ChatPost _ _ _ => true | _ => false end)
            (snd (send_message net message self history))) <= 1 /\
  forall token message',
    In (ChatPost py token message') (snd (send_message net message self history)) ->
    truthy token = true /\ message' = message.
Proof.
  destruct (get_access_token_calls py net self history) as [_ C].
  assert (F : forall made : list (call py),
            (forall t m, ~ In (ChatPost py t m) made) ->
            filter (fun c : call py =>
                      match c with ChatPost _ _ _ => true | _ => false end) made = []).
  { clear. intros made C. induction made as [|c made IH]; [reflexivity|].
    cbn [filter].
    destruct c as [| |r a|t0 m0];
      try (apply IH; intros t m H; apply (C t m); now right).
    exfalso. apply (C t0 m0). now left. }
  unfold send_message, bind, request_completion, lift.
  destruct (get_access_token net self history) as [[[token|e] self'] made] eqn:G;
    cbn [snd] in C |- *.
  - destruct (get_access_token_returned py net self self' history made token G)
      as (T & _).
    destruct (post_chat net (history ++ made) token message) as [result|e];
      cbn [snd]; rewrite ?app_nil_r, filter_app, (F made C); cbn; (split; [lia|]);
      intros t m H; apply in_app_or in H as [H | H];
      try (exfalso; exact (C t m H));
      destruct H as [H | []]; inversion H; subst; now split.
  - rewrite (F made C). split; [cbn; lia|]. intros t m H. exfalso. exact (C t m H).
Qed.

(** X26. With a held token that has not expired, [send_message] reads the
    clock, makes one completion request with that token and the message,
    and returns what the response gives or raises what the request raised:
    there is no second request, and the client is left as it was. *)
Theorem send_message_with_token (message : str) (self : client py)
    (history : list (call py)) :
  truthy (access_token self) = true ->
  ltb py (time_time net history) (token_expires_at self) = true ->
  send_message net message self history =
  (bind_outcome
     (post_chat net (history ++ [TimeRead py]) (access_token self) message)
     (@reply_content py),
   self,
   [TimeRead py; ChatPost py (access_token self) message]).
Proof.
  intros T V. unfold send_message, bind.
  rewrite (get_access_token_cached py net self history T V).
  unfold request_completion, lift.
  destruct (post_chat net (history ++ [TimeRead py]) (access_token self) message);
    reflexivity.
Qed.

(** X27. For a response whose first choice has a message, the reply is the
    content of the message, or the text for an empty reply when the message
    has no content; a [text] beside the message is not looked at. *)
Theorem reply_from_message (fields choice message : list (str * json py))
    (rest : list (json py)) :
  lookup key_choices fields = Some (JArr py (JObj py choice :: rest)) ->
  lookup key_message choice = Some (JObj py message) ->
  reply_content (JObj py fields) =
  Returned (match lookup key_content message with
            | Some content => content
            | None => JStr py empty_reply
            end).
Proof.
  intros C M. unfold reply_content. cbn [py_in py_item bind_outcome].
  rewrite C. cbn [py_len py_first bind_outcome length Nat.ltb Nat.leb py_in py_item].
  rewrite M. reflexivity.
Qed.

(** X28. For a response whose first choice has no message but a text, the
    reply is that text. *)
Theorem reply_from_text (fields choice : list (str * json py))
    (rest : list (json py)) (text : json py) :
  lookup key_choices fields = Some (JArr py (JObj py choice :: rest)) ->
  lookup key_message choice = None ->
  lookup key_text choice = Some text ->
  reply_content (JObj py fields) = Returned text.
Proof.
  intros C M T. unfold reply_content. cbn [py_in py_item bind_outcome].
  rewrite C. cbn [py_len py_first bind_outcome length Nat.ltb Nat.leb py_in py_item].
  rewrite M. cbn [bind_outcome]. now rewrite T.
Qed.

(** X29. For a response without choices, with an empty list of choices, or
    whose first choice has neither message nor text, the reading of the
    response in [send_message] does not raise: the reply is the text that no
    reply could be had. *)
Theorem reply_missing (fields : list (str * json py)) :
  lookup key_choices fields = None \/
  lookup key_choices fields = Some (JArr py []) \/
  (exists choice rest,
     lookup key_choices fields = Some (JArr py (JObj py choice :: rest)) /\
     lookup key_message choice = None /\ lookup key_text choice = None) ->
  reply_content (JObj py fields) = Returned (JStr py no_reply).
Proof.
  unfold reply_content. cbn [py_in py_item bind_outcome].
  intros [C | [C | (choice & rest & C & M & T)]]; rewrite C;
    cbn [py_len py_first bind_outcome length Nat.ltb Nat.leb py_in py_item];
    [reflexivity | reflexivity |].
  rewrite M. cbn [bind_outcome]. now rewrite T.
Qed.

End ClientProperties.

(** * The further properties at work *)

Lemma deliver_speech_first_attempt_witness :
  deliver_speech (working_world hello_reply [Byte.x01]) hello_phrase [] =
  (Ok tt,
   [SendChatAction record_voice; GenerateSpeech hello_phrase;
    AnswerVoice [Byte.x01] voice_opus]).
Proof.
  refine (deliver_speech_first_attempt (working_world hello_reply [Byte.x01])
            hello_phrase [] [Byte.x01] eq_refl eq_refl eq_refl _ eq_refl).
  discriminate.
Defined.



Lemma process_message_never_raises_witness :
  fst (process_message isalpha_model silent_world (Some hi) []) = Ok tt.
Proof.
  exact (process_message_never_raises isalpha_model silent_world (Some hi) []
           (fun _ => eq_refl) (fun _ => eq_refl)).
Defined.

Lemma completion_failure_witness :
  process_message isalpha_model silent_world (Some hi) [] =
  (Ok tt, [SendChatAction typing; SendMessage hi; Answer error_message None]).
Proof.
  exact (completion_failure isalpha_model silent_world hi [] eq_refl eq_refl eq_refl).
Defined.

Lemma text_reply_failure_witness :
  snd (process_message isalpha_model (deaf_world hello_reply) (Some hi) []) =
  [SendChatAction typing; SendMessage hi;
   Answer (compose hello_phrase hello_explanation) None;
   Answer error_message None].
Proof.
  exact (text_reply_failure isalpha_model (deaf_world hello_reply) hi hello_reply
           hello_phrase hello_phrase hello_explanation [] eq_refl eq_refl eq_refl
           eq_refl eq_refl eq_refl).
Defined.

Lemma text_then_speech_witness :
  exists rest,
    process_message isalpha_model (working_world hello_reply [Byte.x01]) (Some hi) [] =
    (Ok tt,
     [SendChatAction typing; SendMessage hi;
      Answer (compose hello_phrase hello_explanation) None;
      SendChatAction record_voice] ++ rest).
Proof.
  exact (text_then_speech isalpha_model (working_world hello_reply [Byte.x01]) hi
           hello_reply hello_phrase hello_phrase hello_explanation [] eq_refl
           eq_refl eq_refl eq_refl eq_refl eq_refl).
Defined.

Lemma placeholder_phrase_witness :
  spoken_phrase isalpha_model blank_text = Ok placeholder /\
  spoken_phrase isalpha_model (blank_text ++ sep ++ hello_post) = Ok placeholder.
Proof.
  split.
  - exact (proj1 (placeholder_phrase isalpha_model) blank_text eq_refl).
  - exact (proj2 (placeholder_phrase isalpha_model) blank_text hello_post
             eq_refl eq_refl).
Defined.

Lemma parse_normal_form_witness :
  trimmed_by isspace hello_phrase /\
  contains nl hello_phrase = false /\
  join space (split_ws hello_phrase) = hello_phrase /\
  contains sep hello_phrase = false /\
  trimmed_by isspace hello_explanation.
Proof.
  exact (parse_normal_form isalpha_model hello_reply hello_phrase
           hello_explanation eq_refl).
Defined.

Lemma parse_first_separator_only_witness :
  parse_gigachat_response isalpha_model
    (hello_pre ++ sep ++ hello_post ++ [10%N] ++ sep) =
  Ok (hello_phrase, hello_explanation ++ [10%N] ++ sep).
Proof.
  exact (proj1 (parse_first_separator_only isalpha_model hello_pre
                  (hello_post ++ [10%N] ++ sep) eq_refl)).
Defined.

Lemma parse_ignores_outer_space_witness :
  parse_gigachat_response isalpha_model (blank_text ++ hello_reply ++ blank_text) =
  parse_gigachat_response isalpha_model hello_reply.
Proof.
  exact (parse_ignores_outer_space isalpha_model blank_text hello_reply blank_text
           eq_refl eq_refl).
Defined.

Lemma text_reply_splits_back_witness :
  contains sep hello_there = false /\
  parse_gigachat_response isalpha_model (compose hello_there hello_there) =
  Ok (clean_phrase hello_there, hello_there).
Proof.
  assert (N : hello_there <> []) by discriminate.
  exact (text_reply_splits_back isalpha_model repairable_reply privet_word
           hello_there hello_there eq_refl eq_refl N).
Defined.

Lemma cached_token_witness :
  GigaChatClient.get_access_token (steady_net (GigaChatClient.Raised GigaChatClient.RequestException))
    (holding_client 1000) [] =
  (GigaChatClient.Returned (GigaChatClient.JStr whole_numbers hi),
   holding_client 1000, [GigaChatClient.TimeRead whole_numbers]).
Proof.
  exact (cached_token whole_numbers
           (steady_net (GigaChatClient.Raised GigaChatClient.RequestException))
           (holding_client 1000) [] eq_refl eq_refl).
Defined.

Lemma returned_token_is_held_witness :
  GigaChatClient.truthy (GigaChatClient.JStr whole_numbers hi) = true /\
  GigaChatClient.access_token
    (@GigaChatClient.Build_client whole_numbers hello_there
       (GigaChatClient.JStr whole_numbers hi) 1842%Z) =
  GigaChatClient.JStr whole_numbers hi.
Proof.
  exact (returned_token_is_held whole_numbers
           (steady_net (GigaChatClient.Returned (token_reply 1800)))
           (GigaChatClient.new_client whole_numbers hello_there)
           (@GigaChatClient.Build_client whole_numbers hello_there
              (GigaChatClient.JStr whole_numbers hi) 1842%Z)
           []
           [GigaChatClient.Uuid4 whole_numbers;
            GigaChatClient.OAuthPost whole_numbers hi hello_there;
            GigaChatClient.TimeRead whole_numbers]
           (GigaChatClient.JStr whole_numbers hi) eq_refl).
Defined.

Lemma token_reused_witness :
  GigaChatClient.get_access_token
    (steady_net (GigaChatClient.Returned (token_reply 1800)))
    (@GigaChatClient.Build_client whole_numbers hello_there
       (GigaChatClient.JStr whole_numbers hi) 1842%Z)
    [GigaChatClient.Uuid4 whole_numbers] =
  (GigaChatClient.Returned (GigaChatClient.JStr whole_numbers hi),
   @GigaChatClient.Build_client whole_numbers hello_there
     (GigaChatClient.JStr whole_numbers hi) 1842%Z,
   [GigaChatClient.TimeRead whole_numbers]).
Proof.
  exact (token_reused whole_numbers
           (steady_net (GigaChatClient.Returned (token_reply 1800)))
           (GigaChatClient.new_client whole_numbers hello_there)
           (@GigaChatClient.Build_client whole_numbers hello_there
              (GigaChatClient.JStr whole_numbers hi) 1842%Z)
           []
           [GigaChatClient.Uuid4 whole_numbers;
            GigaChatClient.OAuthPost whole_numbers hi hello_there;
            GigaChatClient.TimeRead whole_numbers]
           [GigaChatClient.Uuid4 whole_numbers]
           (GigaChatClient.JStr whole_numbers hi) eq_refl eq_refl).
Defined.

Lemma token_refreshed_witness :
  GigaChatClient.get_access_token
    (steady_net (GigaChatClient.Returned (token_reply 1800)))
    (holding_client 50) [] =
  (GigaChatClient.Returned (GigaChatClient.JStr whole_numbers hi),
   @GigaChatClient.Build_client whole_numbers hello_there
     (GigaChatClient.JStr whole_numbers hi) 1843%Z,
   [GigaChatClient.TimeRead whole_numbers; GigaChatClient.Uuid4 whole_numbers;
    GigaChatClient.OAuthPost whole_numbers hi hello_there;
    GigaChatClient.TimeRead whole_numbers]) /\
  GigaChatClient.get_access_token
    (steady_net (GigaChatClient.Returned (token_reply (2 ^ 1024))))
    (holding_client 50) [] =
  (GigaChatClient.Raised GigaChatClient.OverflowError,
   @GigaChatClient.Build_client whole_numbers hello_there
     (GigaChatClient.JStr whole_numbers hi) 50%Z,
   [GigaChatClient.TimeRead whole_numbers; GigaChatClient.Uuid4 whole_numbers;
    GigaChatClient.OAuthPost whole_numbers hi hello_there;
    GigaChatClient.TimeRead whole_numbers]).
Proof.
  split.
  - exact (token_refreshed whole_numbers
             (steady_net (GigaChatClient.Returned (token_reply 1800)))
             (holding_client 50) []
             [(GigaChatClient.key_access_token, GigaChatClient.JStr whole_numbers hi);
              (GigaChatClient.key_expires_in,
               GigaChatClient.JNum whole_numbers 1800%Z)]
             (GigaChatClient.JStr whole_numbers hi) 1800%Z
             eq_refl eq_refl eq_refl eq_refl eq_refl).
  - exact (token_refreshed whole_numbers
             (steady_net (GigaChatClient.Returned (token_reply (2 ^ 1024))))
             (holding_client 50) []
             [(GigaChatClient.key_access_token, GigaChatClient.JStr whole_numbers hi);
              (GigaChatClient.key_expires_in,
               GigaChatClient.JNum whole_numbers (2 ^ 1024)%Z)]
             (GigaChatClient.JStr whole_numbers hi) (2 ^ 1024)%Z
             eq_refl eq_refl eq_refl eq_refl eq_refl).
Defined.

Lemma token_request_fails_witness :
  GigaChatClient.get_access_token
    (steady_net (GigaChatClient.Raised GigaChatClient.RequestException))
    (holding_client 50) [] =
  (GigaChatClient.Raised GigaChatClient.RequestException, holding_client 50,
   [GigaChatClient.TimeRead whole_numbers; GigaChatClient.Uuid4 whole_numbers;
    GigaChatClient.OAuthPost whole_numbers hi hello_there]).
Proof.
  exact (token_request_fails whole_numbers
           (steady_net (GigaChatClient.Raised GigaChatClient.RequestException))
           (holding_client 50) [] GigaChatClient.RequestException eq_refl eq_refl).
Defined.

Lemma token_missing_witness :
  exists self',
    GigaChatClient.get_access_token
      (steady_net (GigaChatClient.Returned empty_token_reply)) (holding_client 50) [] =
    (GigaChatClient.Raised GigaChatClient.ValueError, self',
     token_request_calls (steady_net (GigaChatClient.Returned empty_token_reply))
       (holding_client 50) []) /\
    GigaChatClient.truthy (GigaChatClient.access_token self') = false /\
    GigaChatClient.token_expires_at self' = 50%Z /\
    forall history',
      token_stale (steady_net (GigaChatClient.Returned empty_token_reply))
        self' history' = true.
Proof.
  exact (token_missing whole_numbers
           (steady_net (GigaChatClient.Returned empty_token_reply))
           (holding_client 50) [] _ eq_refl eq_refl eq_refl).
Defined.

Lemma no_completion_without_token_witness :
  GigaChatClient.send_message
    (steady_net (GigaChatClient.Raised GigaChatClient.RequestException))
    hello_phrase (GigaChatClient.new_client whole_numbers hello_there) [] =
  (GigaChatClient.Raised GigaChatClient.RequestException,
   GigaChatClient.new_client whole_numbers hello_there,
   [GigaChatClient.Uuid4 whole_numbers;
    GigaChatClient.OAuthPost whole_numbers hi hello_there]).
Proof.
  exact (no_completion_without_token whole_numbers
           (steady_net (GigaChatClient.Raised GigaChatClient.RequestException))
           hello_phrase (GigaChatClient.new_client whole_numbers hello_there) _ [] _
           GigaChatClient.RequestException eq_refl).
Defined.

Lemma send_message_with_token_witness :
  GigaChatClient.send_message
    (steady_net (GigaChatClient.Raised GigaChatClient.RequestException))
    hello_phrase (holding_client 1000) [] =
  (GigaChatClient.Returned (GigaChatClient.JStr whole_numbers hello_reply),
   holding_client 1000,
   [GigaChatClient.TimeRead whole_numbers;
    GigaChatClient.ChatPost whole_numbers (GigaChatClient.JStr whole_numbers hi)
      hello_phrase]).
Proof.
  exact (send_message_with_token whole_numbers
           (steady_net (GigaChatClient.Raised GigaChatClient.RequestException))
           hello_phrase (holding_client 1000) [] eq_refl eq_refl).
Defined.

Lemma reply_from_message_witness :
  GigaChatClient.reply_content chat_reply =
  GigaChatClient.Returned (GigaChatClient.JStr whole_numbers hello_reply).
Proof.
  exact (reply_from_message whole_numbers
           [(GigaChatClient.key_choices,
             GigaChatClient.JArr whole_numbers
               [GigaChatClient.JObj whole_numbers full_choice])]
           full_choice
           [(GigaChatClient.key_content, GigaChatClient.JStr whole_numbers hello_reply)]
           [] eq_refl eq_refl).
Defined.

Lemma reply_from_text_witness :
  GigaChatClient.reply_content
    (GigaChatClient.JObj whole_numbers
       [(GigaChatClient.key_choices,
         GigaChatClient.JArr whole_numbers
           [GigaChatClient.JObj whole_numbers text_choice])]) =
  GigaChatClient.Returned (GigaChatClient.JStr whole_numbers hello_there).
Proof.
  exact (reply_from_text whole_numbers
           [(GigaChatClient.key_choices,
             GigaChatClient.JArr whole_numbers
               [GigaChatClient.JObj whole_numbers text_choice])]
           text_choice [] (GigaChatClient.JStr whole_numbers hello_there)
           eq_refl eq_refl eq_refl).
Defined.

Lemma reply_missing_witness :
  GigaChatClient.reply_content (token_reply 1800) =
  GigaChatClient.Returned (GigaChatClient.JStr whole_numbers GigaChatClient.no_reply).
Proof.
  exact (reply_missing whole_numbers
           [(GigaChatClient.key_access_token, GigaChatClient.JStr whole_numbers hi);
            (GigaChatClient.key_expires_in, GigaChatClient.JNum whole_numbers 1800%Z)]
           (or_introl eq_refl)).
Defined.
